(** * tui-snake: the board model of [main.py] and its update rule

    A shallow embedding of the game state of [main.py] (directions, points,
    snake, board), of [Board.update], [Board.new_apple] and [Game.init],
    followed by the properties of the update rule.

    Python integers are unbounded, so coordinates, sizes and the score are
    [Z].  The [deque] of body parts is a list written tail first (index 0 is
    the tail, the last element is the head), as the source appends heads on
    the right and pops tails on the left.  [Board] is mutated in place by its
    methods; here the methods are computations in a small state-and-exception
    monad whose state is the board together with the number of random draws
    consumed so far.  [new_apple] and [Game.lost_scene] call themselves; the
    interpreter allows a bounded number of nested frames and raises
    [RecursionError] beyond it, and that bound is a parameter of the model. *)

From Stdlib Require Import ZArith Lia String Ascii.
From stdpp Require Import base decidable option list list_numbers pretty.

Local Open Scope Z_scope.

(** ** Geometry *)

(** [class Direction(IntEnum)] *)
Inductive Direction : Set := UP | DOWN | RIGHT | LEFT.

#[global] Instance Direction_eq_dec : EqDecision Direction.
Proof. solve_decision. Defined.

(** [Direction.opposite], the four disjuncts of the source in order *)
Definition opposite (self other : Direction) : bool :=
  bool_decide (self = UP) && bool_decide (other = DOWN)
  || bool_decide (self = DOWN) && bool_decide (other = UP)
  || bool_decide (self = RIGHT) && bool_decide (other = LEFT)
  || bool_decide (self = LEFT) && bool_decide (other = RIGHT).

(** [@dataclass class Point]; dataclass equality is structural *)
Record Point : Set := mkPoint { x : Z; y : Z }.

#[global] Instance Point_eq_dec : EqDecision Point.
Proof. solve_decision. Defined.

(** [Point.__add__] *)
Definition point_add (self other : Point) : Point :=
  mkPoint (x self + x other) (y self + y other).

(** the [units] table *)
Definition units (d : Direction) : Point :=
  match d with
  | UP => mkPoint 0 (-1)
  | DOWN => mkPoint 0 1
  | RIGHT => mkPoint 1 0
  | LEFT => mkPoint (-1) 0
  end.

(** ** Snake and board *)

Record BodyPart : Set := mkBodyPart { point : Point; direction : Direction }.

#[global] Instance BodyPart_eq_dec : EqDecision BodyPart.
Proof. solve_decision. Defined.

Record Snake : Set := mkSnake { body : list BodyPart }.

(** [Snake.body_points] *)
Definition body_points (self : Snake) : list Point :=
  (fun part => point part) <$> body self.

Record Board : Set := mkBoard {
  width : Z;
  height : Z;
  obstacles : list Point;
  snake : Snake;
  apples : list Point;
  score : Z
}.

(** [Board.within_borders] *)
Definition within_borders (self : Board) (p : Point) : bool :=
  (0 <=? x p) && (x p <? width self) && (0 <=? y p) && (y p <? height self).

(** ** The monad of board methods *)

(** The exceptions the modelled code can raise; [IndexError] and
    [ValueError] carry a message, [RecursionError] is the interpreter's
    "maximum recursion depth exceeded". *)
Inductive exn : Set :=
| IndexError (msg : string)
| ValueError (msg : string)
| RecursionError.

(** The state a method runs in: the board it mutates and how many values
    have been drawn from the random source. *)
Record World : Set := mkWorld { brd : Board; drawn : nat }.

(** A call returns a value, or raises; the mutations made before the
    exception stay in the board. *)
Inductive outcome (A : Type) : Type :=
| Ok (a : A) (w : World)
| Raise (e : exn) (w : World).
Arguments Ok {A} a w.
Arguments Raise {A} e w.

Definition M (A : Type) : Type := World -> outcome A.

Definition ret {A} (a : A) : M A := fun w => Ok a w.

Definition bind {A B} (m : M A) (k : A -> M B) : M B :=
  fun w =>
    match m w with
    | Ok a w' => k a w'
    | Raise e w' => Raise e w'
    end.

Definition raise {A} (e : exn) : M A := fun w => Raise e w.

Declare Scope snake_scope.
Delimit Scope snake_scope with snake.
Notation "'let*' v ':=' m 'in' k" := (bind m (fun v => k))
  (at level 10, v name, k at level 200) : snake_scope.
Notation "m ;; k" := (bind m (fun _ => k))
  (at level 100, k at level 200, right associativity) : snake_scope.
Local Open Scope snake_scope.

Definition get_board : M Board := fun w => Ok (brd w) w.

Definition put_board (b : Board) : M unit :=
  fun w => Ok tt (mkWorld b (drawn w)).

(** attribute stores on [self] *)
Definition set_body (l : list BodyPart) (b : Board) : Board :=
  mkBoard (width b) (height b) (obstacles b) (mkSnake l) (apples b) (score b).

Definition set_apples (l : list Point) (b : Board) : Board :=
  mkBoard (width b) (height b) (obstacles b) (snake b) l (score b).

Definition set_score (s : Z) (b : Board) : Board :=
  mkBoard (width b) (height b) (obstacles b) (snake b) (apples b) s.

(** [self.snake.body[-1]]: the head; [IndexError] on an empty deque *)
Definition body_last : M BodyPart :=
  let* b := get_board in
  match last (body (snake b)) with
  | Some part => ret part
  | None => raise (IndexError "deque index out of range")
  end.

(** [self.snake.body.popleft()]: drops the tail *)
Definition body_popleft : M BodyPart :=
  let* b := get_board in
  match body (snake b) with
  | [] => raise (IndexError "pop from an empty deque")
  | part :: rest => put_board (set_body rest b) ;; ret part
  end.

(** [self.snake.body[-1].direction = d]: fetches the head object, then
    stores into its field *)
Definition body_last_set_direction (d : Direction) : M unit :=
  let* part := body_last in
  let* b := get_board in
  let l := body (snake b) in
  put_board (set_body (<[pred (length l) := mkBodyPart (point part) d]> l) b).

(** [self.snake.body.append(part)] *)
Definition body_append (part : BodyPart) : M unit :=
  let* b := get_board in
  put_board (set_body (body (snake b) ++ [part]) b).

(** [list.remove]: the first element equal to [p] goes *)
Fixpoint list_remove (p : Point) (l : list Point) : option (list Point) :=
  match l with
  | [] => None
  | q :: l' =>
      if bool_decide (q = p) then Some l'
      else match list_remove p l' with
           | Some r => Some (q :: r)
           | None => None
           end
  end.

(** [self.apples.remove(p)] *)
Definition apples_remove (p : Point) : M unit :=
  let* b := get_board in
  match list_remove p (apples b) with
  | Some l => put_board (set_apples l b)
  | None => raise (ValueError "list.remove(x): x not in list")
  end.

(** [self.apples.append(p)] *)
Definition apples_append (p : Point) : M unit :=
  let* b := get_board in
  put_board (set_apples (apples b ++ [p]) b).

(** [self.score += 1] *)
Definition score_incr : M unit :=
  let* b := get_board in
  put_board (set_score (score b + 1) b).

Section RandomSource.

(** The random source: [rnd k] is the raw value behind the [k]-th draw. *)
Variable rnd : nat -> Z.

(** [random.randint(a, b)]: some integer of [a..b], here the raw value
    reduced into the range; an empty range raises, with the message of
    [randrange(a, b + 1)] in CPython 3.11. *)
Definition randint (a b : Z) : M Z :=
  fun w =>
    if b <? a then
      Raise (ValueError ("empty range for randrange() (" +:+ pretty a +:+ ", "
                         +:+ pretty (b + 1) +:+ ", " +:+ pretty (b + 1 - a)
                         +:+ ")")) w
    else Ok (a + rnd (drawn w) `mod` (b - a + 1))
            (mkWorld (brd w) (S (drawn w))).

(** [Board.new_apple].  [fuel] is the number of frames of [new_apple] that
    the interpreter's recursion limit leaves room for at the call: each of
    them samples and tests one candidate; the frame after them is stopped
    by [RecursionError] before it draws anything (the limit is hit on its
    way into [randint]), and the exception passes through the frames
    above, which have nothing left to do. *)
Fixpoint new_apple (fuel : nat) : M unit :=
  match fuel with
  | O => raise RecursionError
  | S fuel' =>
      let* b := get_board in
      let* new_x := randint 0 (width b - 1) in
      let* new_y := randint 0 (height b - 1) in
      let apple := mkPoint new_x new_y in
      if bool_decide (apple ∈ obstacles b)
         || bool_decide (apple ∈ apples b)
         || bool_decide (apple ∈ body_points (snake b))
      then new_apple fuel'
      else apples_append apple
  end.

(** lines 74-79 of [Board.update]: eat the apple at [next_pos], or drop
    the tail *)
Definition eat_or_shrink (fuel : nat) (next_pos : Point) : M unit :=
  let* b := get_board in
  if bool_decide (next_pos ∈ apples b) then
    apples_remove next_pos ;;
    new_apple fuel ;;
    score_incr
  else
    body_popleft ;; ret tt.

(** [Board.update] *)
Definition update (fuel : nat) (dir : Direction) (shifted : bool) : M bool :=
  let* head := body_last in
  if opposite (direction head) dir then ret true
  else
    let* head := body_last in
    let head_pos := point head in
    let next_pos := point_add head_pos (units dir) in
    eat_or_shrink fuel next_pos ;;
    let* b := get_board in
    if bool_decide (next_pos ∈ obstacles b)
       || bool_decide (next_pos ∈ body_points (snake b))
    then ret false
    else
      body_last_set_direction dir ;;
      body_append (mkBodyPart next_pos dir) ;;
      ret true.

End RandomSource.

(** ** The controller's session set-up *)

(** [Game]: the replay flag and the active board ([None] before the first
    [init]); the renderer and the curses window are external. *)
Record Game : Set := mkGame { replay : bool; board : option Board }.

(** the perimeter test of [Game.init], row [i] and column [j] *)
Definition on_perimeter (h w i j : Z) : bool :=
  bool_decide (i = 0) || bool_decide (i = h - 1)
  || bool_decide (j = 0) || bool_decide (j = w - 1).

(** [Game.init]; [range(n)] is [seqZ 0 n], each loop a left fold whose
    accumulator is the list being appended to *)
Definition init (self : Game) (h w : Z) : Game :=
  let snake0 :=
    mkSnake (foldl (fun bd i => bd ++ [mkBodyPart (mkPoint i 1) RIGHT])
                   [] (seqZ 1 3)) in
  let board0 := mkBoard w h [] snake0 [mkPoint (w `div` 2) (h `div` 2)] 0 in
  let obs :=
    foldl (fun acc i =>
             foldl (fun acc j =>
                      if on_perimeter (height board0) (width board0) i j
                      then acc ++ [mkPoint j i] else acc)
                   acc (seqZ 0 (width board0)))
          (obstacles board0) (seqZ 0 (height board0)) in
  mkGame (replay self)
         (Some (mkBoard (width board0) (height board0) obs (snake board0)
                        (apples board0) (score board0))).

(** [Game.__post_init__] *)
Definition new_game : Game := mkGame true None.

(** ** Vocabulary of the statements *)

(** the rejection test of [new_apple], as a predicate on cells *)
Definition occupied (b : Board) (p : Point) : bool :=
  bool_decide (p ∈ obstacles b)
  || bool_decide (p ∈ apples b)
  || bool_decide (p ∈ body_points (snake b)).

(** the cell that the attempt starting at draw [k] samples on board [b] *)
Definition candidate (rnd : nat -> Z) (b : Board) (k : nat) : Point :=
  mkPoint (rnd k `mod` width b) (rnd (S k) `mod` height b).

(** the board's grid has at least one cell *)
Definition proper_size (b : Board) : Prop := 0 < width b ∧ 0 < height b.

(** every cell of the grid is taken *)
Definition saturated (b : Board) : Prop :=
  ∀ p, within_borders b p = true → occupied b p = true.

(** where the head is about to go *)
Definition next_pos_of (hd : BodyPart) (d : Direction) : Point :=
  point_add (point hd) (units d).

(** the world after a committed move that started from [w1], the state
    left by lines 74-79: the old head's direction is rewritten and the new
    head appended *)
Definition committed (w1 : World) (d : Direction) (np : Point) : World :=
  let l := body (snake (brd w1)) in
  match last l with
  | Some h1 =>
      mkWorld
        (set_body (<[Nat.pred (length l) := mkBodyPart (point h1) d]> l
                   ++ [mkBodyPart np d]) (brd w1))
        (drawn w1)
  | None => w1
  end.

(** [self.board] of a game that has been initialised *)
Definition board_of (g : Game) : Board :=
  match board g with
  | Some b => b
  | None => mkBoard 0 0 [] (mkSnake []) [] 0
  end.

(** the board of [main]: [game.init(20, 30)] *)
Definition start_board : Board := board_of (init new_game 20 30).

(** the starting snake, tail to head *)
Definition start_body : list BodyPart :=
  [mkBodyPart (mkPoint 1 1) RIGHT; mkBodyPart (mkPoint 2 1) RIGHT;
   mkBodyPart (mkPoint 3 1) RIGHT].

(** the body as lines 74-79 leave it: untouched when [np] holds an apple,
    without its tail otherwise *)
Definition adjusted_body (b : Board) (np : Point) : list BodyPart :=
  if bool_decide (np ∈ apples b) then body (snake b) else tail (body (snake b)).

(** [np] is an obstacle or a cell of the adjusted body *)
Definition death_cell (b : Board) (np : Point) : Prop :=
  np ∈ obstacles b ∨ np ∈ body_points (mkSnake (adjusted_body b np)).

#[global] Instance death_cell_dec b np : Decision (death_cell b np).
Proof. unfold death_cell. apply _. Defined.

(** ** Boards and runs of the scenarios *)

(** a board of one cell, and that cell is a wall *)
Definition walled_in : Board :=
  mkBoard 1 1 [mkPoint 0 0] (mkSnake []) [] 0.

(** a run of direction keys through [Game.loop]: each key calls
    [update(direction, False)], the run stops at the first death *)
Fixpoint updates (rnd : nat -> Z) (fuel : nat) (ds : list Direction) : M bool :=
  match ds with
  | [] => ret true
  | d :: ds' =>
      let* alive := update rnd fuel d false in
      if alive then updates rnd fuel ds' else ret false
  end.

(** from the start to the apple at (15,10): twelve cells right, nine down *)
Definition to_the_apple : list Direction :=
  replicate 12 RIGHT ++ replicate 9 DOWN.

(** a random source whose first two values are 15 and 10 *)
Definition unlucky (k : nat) : Z :=
  match k with
  | O => 15
  | S O => 10
  | _ => 5
  end.

(** a random source whose first two values are 15 and 10 and that offers
    the corner wall (0,0) ever after *)
Definition hopeless (k : nat) : Z :=
  match k with
  | O => 15
  | S O => 10
  | _ => 0
  end.

(** a random source that offers the corner wall (0,0) in its first 1200
    attempts and the free cell (5,5) from then on *)
Definition late (k : nat) : Z := if (k <? 2400)%nat then 0 else 5.

(** the board of [main] one step before the apple: the head at (15,9) *)
Definition before_apple : Board :=
  set_body [mkBodyPart (mkPoint 15 7) DOWN; mkBodyPart (mkPoint 15 8) DOWN;
            mkBodyPart (mkPoint 15 9) DOWN] start_board.

(** the board of [main] after eating its apple with the draws of
    [unlucky] and walking right, down and left around it: the head at
    (15,11) sits below the tail at (15,10), where the replacement apple
    still lies *)
Definition coiled : Board :=
  mkBoard 30 20 (obstacles start_board)
    (mkSnake [mkBodyPart (mkPoint 15 10) RIGHT; mkBodyPart (mkPoint 16 10) DOWN;
              mkBodyPart (mkPoint 16 11) LEFT; mkBodyPart (mkPoint 15 11) LEFT])
    [mkPoint 15 10] 1.

(** a game in which a session has been played to its end *)
Definition played : Game :=
  mkGame true (Some (set_score 2 (set_apples [mkPoint 5 5] coiled))).

(** ** Shapes of a returning [update] *)

(** each segment but the head faces the cell of the segment after it *)
Fixpoint linked (l : list BodyPart) : bool :=
  match l with
  | a :: rest =>
      match rest with
      | b :: _ => bool_decide (next_pos_of a (direction a) = point b) && linked rest
      | [] => true
      end
  | [] => true
  end.

(** every cell on the rim of the grid is an obstacle *)
Definition walled (b : Board) : Prop :=
  ∀ p, within_borders b p = true →
       x p = 0 ∨ x p = width b - 1 ∨ y p = 0 ∨ y p = height b - 1 →
       p ∈ obstacles b.

(** every segment lies strictly inside the rim *)
Definition inside (b : Board) : Prop :=
  ∀ p, p ∈ body_points (snake b) →
       0 < x p ∧ x p < width b - 1 ∧ 0 < y p ∧ y p < height b - 1.

(** the five ways a call of [update] returns, from the world [w] whose
    head is [hd], on the direction [d]: the result and the final world *)
Inductive update_shape (w : World) (hd : BodyPart) (d : Direction) :
  bool → World → Prop :=
| shape_reversal :
    opposite (direction hd) d = true →
    update_shape w hd d true w
| shape_shrink_death t rest :
    opposite (direction hd) d = false →
    next_pos_of hd d ∉ apples (brd w) →
    body (snake (brd w)) = t :: rest →
    next_pos_of hd d ∈ obstacles (brd w)
    ∨ next_pos_of hd d ∈ body_points (mkSnake rest) →
    update_shape w hd d false (mkWorld (set_body rest (brd w)) (drawn w))
| shape_move t mid :
    opposite (direction hd) d = false →
    next_pos_of hd d ∉ apples (brd w) →
    body (snake (brd w)) = t :: mid ++ [hd] →
    next_pos_of hd d ∉ obstacles (brd w) →
    next_pos_of hd d ∉ body_points (mkSnake (mid ++ [hd])) →
    update_shape w hd d true
      (mkWorld (set_body (mid ++ [mkBodyPart (point hd) d;
                                  mkBodyPart (next_pos_of hd d) d]) (brd w))
               (drawn w))
| shape_eat_death l1 l2 p k' :
    opposite (direction hd) d = false →
    apples (brd w) = l1 ++ next_pos_of hd d :: l2 →
    next_pos_of hd d ∉ l1 →
    within_borders (brd w) p = true →
    p ∉ obstacles (brd w) → p ∉ l1 ++ l2 →
    p ∉ body_points (snake (brd w)) →
    next_pos_of hd d ∈ obstacles (brd w)
    ∨ next_pos_of hd d ∈ body_points (snake (brd w)) →
    (drawn w < k')%nat →
    update_shape w hd d false
      (mkWorld (set_score (score (brd w) + 1)
                  (set_apples (l1 ++ l2 ++ [p]) (brd w))) k')
| shape_eat_move l1 l2 p k' mid :
    opposite (direction hd) d = false →
    apples (brd w) = l1 ++ next_pos_of hd d :: l2 →
    next_pos_of hd d ∉ l1 →
    within_borders (brd w) p = true →
    p ∉ obstacles (brd w) → p ∉ l1 ++ l2 →
    p ∉ body_points (snake (brd w)) →
    body (snake (brd w)) = mid ++ [hd] →
    next_pos_of hd d ∉ obstacles (brd w) →
    next_pos_of hd d ∉ body_points (snake (brd w)) →
    (drawn w < k')%nat →
    update_shape w hd d true
      (mkWorld
         (set_body (mid ++ [mkBodyPart (point hd) d;
                            mkBodyPart (next_pos_of hd d) d])
            (set_score (score (brd w) + 1)
               (set_apples (l1 ++ l2 ++ [p]) (brd w)))) k').

(** ** The terminal *)

(** the calls made on the curses library, in the order they are made;
    [getch] is an input and is counted, not logged *)
Inductive CursesCall : Set :=
| Initscr
| CursSet (visibility : Z)
| Noecho
| Clear
| AddStr (row col : Z) (s : string)
| Refresh
| Endwin.

#[global] Instance CursesCall_eq_dec : EqDecision CursesCall.
Proof. solve_decision. Defined.

(** ** [TerminalRenderer.render] *)

(** the four [if]s on [part.direction]: [char] is a local of [render] and
    keeps the value of the previous iteration when no test matches *)
Definition choose_char (char : option string) (d : Direction) : option string :=
  let char := if bool_decide (d = UP) then Some "A"%string else char in
  let char := if bool_decide (d = DOWN) then Some "V"%string else char in
  let char := if bool_decide (d = RIGHT) then Some ">"%string else char in
  let char := if bool_decide (d = LEFT) then Some "<"%string else char in
  char.

(** the loop over the cells: one dot per cell, row by row *)
Definition render_grid (b : Board) : list CursesCall :=
  foldl (fun acc y =>
           foldl (fun acc x => acc ++ [AddStr (y + 1) x "."])
                 acc (seqZ 0 (width b)))
        [] (seqZ 0 (height b)).

(** the loop over the obstacles *)
Definition render_obstacles (b : Board) : list CursesCall :=
  foldl (fun acc obstacle =>
           if within_borders b obstacle
           then acc ++ [AddStr (y obstacle + 1) (x obstacle) "#"]
           else acc)
        [] (obstacles b).

(** the loop over the apples *)
Definition render_apples (b : Board) : list CursesCall :=
  foldl (fun acc apple =>
           if within_borders b apple
           then acc ++ [AddStr (y apple + 1) (x apple) "@"]
           else acc)
        [] (apples b).

(** the loop over the body: the calls made and the value of [char];
    [None] when [char] is read before any assignment (UnboundLocalError) *)
Definition render_snake (b : Board) : option (list CursesCall * option string) :=
  foldl (fun st part =>
           match st with
           | Some (acc, char) =>
               if within_borders b (point part) then
                 match choose_char char (direction part) with
                 | Some c =>
                     Some (acc ++ [AddStr (y (point part) + 1) (x (point part)) c],
                           Some c)
                 | None => None
                 end
               else Some (acc, char)
           | None => None
           end)
        (Some ([], None)) (body (snake b)).

(** [TerminalRenderer.render]: the calls it makes on the screen *)
Definition render (b : Board) : option (list CursesCall) :=
  match render_snake b with
  | Some (snake_calls, _) =>
      Some ([Clear; AddStr 0 0 (pretty (score b))]
            ++ render_grid b ++ render_obstacles b ++ render_apples b
            ++ snake_calls ++ [Refresh])
  | None => None
  end.

(** the glyph of a segment facing [d] *)
Definition glyph (d : Direction) : string :=
  match d with
  | UP => "A"
  | DOWN => "V"
  | RIGHT => ">"
  | LEFT => "<"
  end.

(** one call seen from the cell (row, col): [clear] blanks it, an
    [addstr] at exactly that cell replaces what it shows *)
Definition write_step (row col : Z) (cur : option string) (c : CursesCall) :
  option string :=
  match c with
  | Clear => None
  | AddStr r c' s => if bool_decide (r = row ∧ c' = col) then Some s else cur
  | _ => cur
  end.

(** the string of the last [addstr] at exactly (row, col) since the last
    [clear] *)
Definition last_write (cs : list CursesCall) (row col : Z) : option string :=
  foldl (write_step row col) None cs.

(** what the cell [p] is expected to show: the topmost of snake, apple,
    obstacle and background; of several segments on [p], the one nearest
    to the head *)
Definition cell_glyph (b : Board) (p : Point) : string :=
  match last (filter (fun part => point part = p) (body (snake b))) with
  | Some part => glyph (direction part)
  | None =>
      if bool_decide (p ∈ apples b) then "@"
      else if bool_decide (p ∈ obstacles b) then "#"
      else "."
  end.

(** ** The controller *)

(** what the controller's methods can raise: an exception of a board
    method, [ValueError] of [chr], [UnboundLocalError] of [render],
    [AttributeError] for [self.board] before [init], [RecursionError] of
    the recursion of [lost_scene], [SystemExit] *)
Inductive gexn : Set :=
| BoardError (e : exn)
| ChrValueError
| UnboundLocalError
| AttributeError
| SceneRecursionError
| SystemExit (code : Z).

(** the state of a run: the game object, the draws taken from the random
    source, the keys taken from the keyboard, the calls made on curses *)
Record GWorld : Set := mkGWorld {
  game : Game;
  gdrawn : nat;
  keys_read : nat;
  calls : list CursesCall
}.

(** A method returns or raises.  The two [while] loops of [main] have no
    bound of their own: a run of them is followed for a given number of
    rounds, and [GRunning gw] is a loop that is still going, in the state
    [gw], when those rounds are over. *)
Inductive goutcome (A : Type) : Type :=
| GOk (a : A) (gw : GWorld)
| GRaise (e : gexn) (gw : GWorld)
| GRunning (gw : GWorld).
Arguments GOk {A} a gw.
Arguments GRaise {A} e gw.
Arguments GRunning {A} gw.

Definition GM (A : Type) : Type := GWorld -> goutcome A.

Definition gret {A} (a : A) : GM A := fun gw => GOk a gw.

Definition gbind {A B} (m : GM A) (k : A -> GM B) : GM B :=
  fun gw =>
    match m gw with
    | GOk a gw' => k a gw'
    | GRaise e gw' => GRaise e gw'
    | GRunning gw' => GRunning gw'
    end.

Definition graise {A} (e : gexn) : GM A := fun gw => GRaise e gw.

Declare Scope game_scope.
Delimit Scope game_scope with game.
Notation "'let*' v ':=' m 'in' k" := (gbind m (fun v => k))
  (at level 10, v name, k at level 200) : game_scope.
Notation "m ;; k" := (gbind m (fun _ => k))
  (at level 100, k at level 200, right associativity) : game_scope.
Local Open Scope game_scope.

(** a call on curses *)
Definition call (c : CursesCall) : GM unit :=
  fun gw => GOk tt (mkGWorld (game gw) (gdrawn gw) (keys_read gw) (calls gw ++ [c])).

(** [self.board] *)
Definition self_board : GM Board :=
  fun gw =>
    match board (game gw) with
    | Some b => GOk b gw
    | None => GRaise AttributeError gw
    end.

(** [self.replay = v] *)
Definition set_replay (v : bool) : GM unit :=
  fun gw =>
    GOk tt (mkGWorld (mkGame v (board (game gw)))
                     (gdrawn gw) (keys_read gw) (calls gw)).

(** [ord] of a character literal *)
Definition ord (c : ascii) : Z := Z.of_N (N_of_ascii c).

(** [chr(i)]: [ValueError] outside [range(0x110000)]; the character is
    kept as its code point *)
Definition chr (i : Z) : GM Z :=
  if (i <? 0) || (1114111 <? i) then graise ChrValueError else gret i.

(** [self.renderer.render(self.board, self.scr)] *)
Definition do_render : GM unit :=
  let* b := self_board in
  match render b with
  | Some cs =>
      fun gw => GOk tt (mkGWorld (game gw) (gdrawn gw) (keys_read gw)
                                 (calls gw ++ cs))
  | None => graise UnboundLocalError
  end.

(** [Game.deinit] *)
Definition deinit : GM unit := call Endwin.

(** the text of the help scene, with its line feeds *)
Definition help_text : string :=
  "Welcome to TUI Snake." +:+ String "010" "Use wasd or hjkl to move."
  +:+ String "010" "Press `q` to exit."
  +:+ String "010" "Tap any key to continue.".

(** the pure part of [Game.init] followed by its curses calls *)
Definition game_init (h w : Z) : GM unit :=
  (fun gw => GOk tt (mkGWorld (init (game gw) h w)
                              (gdrawn gw) (keys_read gw) (calls gw))) ;;
  call Initscr ;;
  call (CursSet 0) ;;
  call Noecho.

Section Inputs.

(** the random source, and the keyboard: [keys k] is what the [k]-th call
    of [getch] returns *)
Variable rnd : nat -> Z.
Variable keys : nat -> Z.

(** [self.scr.getch()] *)
Definition getch : GM Z :=
  fun gw => GOk (keys (keys_read gw))
                (mkGWorld (game gw) (gdrawn gw) (S (keys_read gw)) (calls gw)).

(** [self.board.update(direction, shifted)]: the board method run on the
    board of the game *)
Definition board_update (fuel : nat) (dir : Direction) (shifted : bool) : GM bool :=
  let* b := self_board in
  fun gw =>
    match update rnd fuel dir shifted (mkWorld b (gdrawn gw)) with
    | Ok r w' =>
        GOk r (mkGWorld (mkGame (replay (game gw)) (Some (brd w')))
                        (drawn w') (keys_read gw) (calls gw))
    | Raise e w' =>
        GRaise (BoardError e)
               (mkGWorld (mkGame (replay (game gw)) (Some (brd w')))
                         (drawn w') (keys_read gw) (calls gw))
    end.

(** [Game.lost_scene].  [depth] is the number of frames of [lost_scene]
    that the interpreter's recursion limit leaves room for: each of them
    writes the prompt and reads a key; the frame after them is stopped by
    [RecursionError] before it writes. *)
Fixpoint lost_scene (depth : nat) : GM unit :=
  match depth with
  | O => graise SceneRecursionError
  | S depth' =>
      let* b := self_board in
      call (AddStr (height b + 2) 0
                   "You lost. Press `q` to quit or `r` to restart") ;;
      let* c := getch in
      let* char := chr c in
      if bool_decide (char = ord "q") then set_replay false
      else if bool_decide (char = ord "r") then set_replay true
      else lost_scene depth'
  end.

(** the tail of [Game.loop], once the key has named a direction; [fuel]
    is the room left for [new_apple], [depth] for [lost_scene] *)
Definition move (fuel depth : nat) (dir : Direction) : GM bool :=
  let* is_alive := board_update fuel dir false in
  if negb is_alive then
    lost_scene depth ;;
    gret false
  else gret true.

(** [Game.loop] *)
Definition loop (fuel depth : nat) : GM bool :=
  do_render ;;
  let* char := getch in
  let* ch := chr char in
  if bool_decide (ch = ord "a") || bool_decide (ch = ord "h") then
    move fuel depth LEFT
  else if bool_decide (ch = ord "s") || bool_decide (ch = ord "j") then
    move fuel depth DOWN
  else if bool_decide (ch = ord "w") || bool_decide (ch = ord "k") then
    move fuel depth UP
  else if bool_decide (ch = ord "d") || bool_decide (ch = ord "l") then
    move fuel depth RIGHT
  else if bool_decide (ch = ord "q") then
    set_replay false ;;
    gret false
  else gret true.

(** [Game.help_scene] *)
Definition help_scene : GM unit :=
  call Clear ;;
  call (AddStr 0 0 help_text) ;;
  let* c := getch in
  let* char := chr c in
  if bool_decide (char = ord "q") then
    deinit ;;
    graise (SystemExit 0)
  else gret tt.

(** [while game.loop(): pass], followed for [turns] turns *)
Fixpoint play (fuel depth turns : nat) : GM unit :=
  match turns with
  | O => fun gw => GRunning gw
  | S turns' =>
      let* again := loop fuel depth in
      if again then play fuel depth turns' else gret tt
  end.

(** the [while game.replay] loop of [main], followed for [n] sessions of
    at most [turns] turns each *)
Fixpoint sessions (fuel depth turns n : nat) : GM unit :=
  match n with
  | O => fun gw => GRunning gw
  | S n' =>
      fun gw =>
        if replay (game gw) then
          (game_init 20 30 ;;
           help_scene ;;
           play fuel depth turns ;;
           sessions fuel depth turns n') gw
        else GOk tt gw
  end.

(** [main], from the construction of the game to [game.deinit()] *)
Definition main (fuel depth turns n : nat) : goutcome unit :=
  (sessions fuel depth turns n ;; deinit) (mkGWorld new_game 0 0 []).

End Inputs.

Local Close Scope game_scope.

(** ** Vocabulary of the controller's statements *)

(** a key code that [chr] accepts *)
Definition is_char (c : Z) : Prop := 0 ≤ c ∧ c ≤ 1114111.

(** the prompt of the lost scene on board [b] *)
Definition lost_prompt (b : Board) : CursesCall :=
  AddStr (height b + 2) 0 "You lost. Press `q` to quit or `r` to restart".

(** the keys [Game.loop] reacts to *)
Definition bound_keys : list Z :=
  [ord "a"; ord "h"; ord "s"; ord "j"; ord "w"; ord "k"; ord "d"; ord "l";
   ord "q"].

(** the exceptions that end a sound game before its time: [ValueError]
    of [chr] on a key code out of range, and [RecursionError], out of the
    retries of [new_apple] or out of the rounds of the lost scene *)
Definition expected_error (e : gexn) : Prop :=
  e = ChrValueError ∨ e = BoardError RecursionError ∨ e = SceneRecursionError.


(** the state of a run after one more key and the calls [cs] *)
Definition after_key (gw : GWorld) (cs : list CursesCall) : GWorld :=
  mkGWorld (game gw) (gdrawn gw) (S (keys_read gw)) (calls gw ++ cs).

(** what every board of a game satisfies, dead or alive: a grid with
    cells; a body whose segments face their successors, share no cell and
    avoid the obstacles; apples that are distinct, in the grid and off the
    obstacles; obstacles all along the rim and the body strictly inside *)
Definition board_safe (b : Board) : Prop :=
  proper_size b
  ∧ linked (body (snake b)) = true
  ∧ NoDup (body_points (snake b))
  ∧ (∀ p, p ∈ body_points (snake b) → p ∉ obstacles b)
  ∧ NoDup (apples b)
  ∧ (∀ a, a ∈ apples b → within_borders b a = true ∧ a ∉ obstacles b)
  ∧ walled b
  ∧ inside b.

(** what the board satisfies while the snake lives: at least the three
    starting segments, and one point per segment gained *)
Definition alive_ok (b : Board) : Prop :=
  board_safe b
  ∧ (3 ≤ length (body (snake b)))%nat
  ∧ score b = Z.of_nat (length (body (snake b))) - 3.

(** a small game for the examples: [init(4, 6)], six cells wide and four
    high, the apple at (3,2) *)
Definition small_game : Game := init new_game 4 6.

Definition small_board : Board := board_of small_game.

(** the small board with its apple moved right in front of the head *)
Definition small_apple_ahead : Board := set_apples [mkPoint 4 1] small_board.

(** the start of a run on the small game *)
Definition small_start : GWorld := mkGWorld small_game 0 0 [].

(** a keyboard that yields the listed codes and then [q] for ever *)
Definition typed (l : list Z) (k : nat) : Z := default (ord "q") (l !! k).

(** the calls made between two states of a run, none of them [endwin] *)
Definition screen_kept (gw gw' : GWorld) : Prop :=
  ∃ extra, calls gw' = calls gw ++ extra ∧ Endwin ∉ extra.

(** ** Basic facts *)

(** closes a decidable membership goal on concrete data by evaluation *)
Ltac decide_by_eval :=
  match goal with
  | |- ?a ∉ ?l =>
      apply (bool_decide_eq_false_1 (a ∈ l)); vm_compute; reflexivity
  | |- ?a ∈ ?l =>
      apply (bool_decide_eq_true_1 (a ∈ l)); vm_compute; reflexivity
  end.

Lemma within_borders_spec b p :
  within_borders b p = true ↔
  0 ≤ x p ∧ x p < width b ∧ 0 ≤ y p ∧ y p < height b.
Proof. unfold within_borders. rewrite !andb_true_iff. lia. Qed.

Lemma occupied_false b p :
  occupied b p = false ↔
  (p ∉ obstacles b) ∧ (p ∉ apples b) ∧ (p ∉ body_points (snake b)).
Proof.
  unfold occupied. rewrite !orb_false_iff, !bool_decide_eq_false. tauto.
Qed.

Lemma candidate_within rnd b k :
  proper_size b → within_borders b (candidate rnd b k) = true.
Proof.
  intros [Hw Hh]. apply within_borders_spec. unfold candidate. simpl.
  pose proof (Z.mod_pos_bound (rnd k) _ Hw).
  pose proof (Z.mod_pos_bound (rnd (S k)) _ Hh). lia.
Qed.

(** [randint 0 (n - 1)] on a non-empty range: the raw value modulo [n] *)
Lemma randint_range rnd n w :
  0 < n →
  randint rnd 0 (n - 1) w = Ok (rnd (drawn w) `mod` n) (mkWorld (brd w) (S (drawn w))).
Proof.
  intros Hn. unfold randint.
  destruct (Z.ltb_spec (n - 1) 0) as [Hlt|_]; [lia|].
  replace (n - 1 - 0 + 1) with n by lia. reflexivity.
Qed.

Lemma randint_empty rnd n w :
  n ≤ 0 → ∃ msg, randint rnd 0 (n - 1) w = Raise (ValueError msg) w.
Proof.
  intros Hn. unfold randint.
  destruct (Z.ltb_spec (n - 1) 0) as [_|Hge]; [eauto | lia].
Qed.

(** ** [new_apple]: one frame of the recursion *)

Lemma new_apple_frame rnd fuel b k :
  proper_size b →
  new_apple rnd (S fuel) (mkWorld b k) =
    if occupied b (candidate rnd b k)
    then new_apple rnd fuel (mkWorld b (S (S k)))
    else Ok tt (mkWorld (set_apples (apples b ++ [candidate rnd b k]) b) (S (S k))).
Proof.
  intros [Hw Hh]. cbn [new_apple]. unfold bind at 1. cbn [get_board brd].
  unfold bind at 1. rewrite (randint_range rnd _ _ Hw). cbn [brd drawn].
  unfold bind at 1. rewrite (randint_range rnd _ _ Hh). cbn [brd drawn].
  fold (candidate rnd b k). fold (occupied b (candidate rnd b k)).
  destruct (occupied b (candidate rnd b k)); reflexivity.
Qed.

Lemma new_apple_improper rnd fuel b k :
  ¬ proper_size b →
  ∃ msg k', new_apple rnd (S fuel) (mkWorld b k) = Raise (ValueError msg) (mkWorld b k').
Proof.
  intros Hn. cbn [new_apple]. unfold bind at 1. cbn [get_board brd].
  unfold bind at 1.
  destruct (Z.lt_ge_cases 0 (width b)) as [Hw|Hw].
  - rewrite (randint_range rnd _ _ Hw). cbn [brd drawn]. unfold bind at 1.
    destruct (Z.lt_ge_cases 0 (height b)) as [Hh|Hh].
    + exfalso. apply Hn. split; assumption.
    + destruct (randint_empty rnd (height b) (mkWorld b (S k)) Hh) as [msg ->].
      eauto.
  - destruct (randint_empty rnd (width b) (mkWorld b k) Hw) as [msg ->]. eauto.
Qed.

(** What a call of [new_apple] can do, whatever the room for its
    recursion: return having appended one free in-grid cell, or raise with
    the board as it was, [ValueError] on a grid without cells and
    [RecursionError] when the room is used up. *)
Lemma new_apple_outcome rnd fuel b k :
  match new_apple rnd fuel (mkWorld b k) with
  | Ok _ w' =>
      ∃ p, brd w' = set_apples (apples b ++ [p]) b
           ∧ within_borders b p = true
           ∧ occupied b p = false
           ∧ (k < drawn w')%nat
  | Raise e w' =>
      brd w' = b
      ∧ ((∃ msg, e = ValueError msg) ∧ ¬ proper_size b ∨ e = RecursionError)
  end.
Proof.
  revert k. induction fuel as [|fuel IH]; intros k.
  { cbn. split; [reflexivity | right; reflexivity]. }
  destruct (decide (0 < width b ∧ 0 < height b)) as [Hp|Hp].
  - rewrite new_apple_frame by exact Hp.
    destruct (occupied b (candidate rnd b k)) eqn:Hocc.
    + specialize (IH (S (S k))).
      destruct (new_apple rnd fuel (mkWorld b (S (S k)))) as [u w'|e w']; auto.
      destruct IH as (p & ? & ? & ? & ?). exists p. repeat split; auto. lia.
    + exists (candidate rnd b k). cbn [brd drawn].
      repeat split; auto using candidate_within.
  - destruct (new_apple_improper rnd fuel b k Hp) as (msg & k' & ->).
    split; [reflexivity | left; split; [eauto | exact Hp]].
Qed.

(** More room never changes a result already reached. *)
Lemma new_apple_fuel_mono rnd fuel fuel' w u w' :
  (fuel ≤ fuel')%nat →
  new_apple rnd fuel w = Ok u w' → new_apple rnd fuel' w = Ok u w'.
Proof.
  revert fuel' w. induction fuel as [|fuel IH]; intros fuel' [b k] Hle H.
  - discriminate.
  - destruct fuel' as [|fuel']; [lia|].
    destruct (decide (proper_size b)) as [Hp|Hp].
    + rewrite new_apple_frame in * by exact Hp.
      destruct (occupied b (candidate rnd b k)); [|exact H].
      apply IH; [lia | exact H].
    + destruct (new_apple_improper rnd fuel b k Hp) as (msg & k' & Hr).
      congruence.
Qed.

(** When every frame rejects its candidate the call ends with
    [RecursionError], two draws per frame taken and the board untouched. *)
Lemma new_apple_rejected rnd b fuel : ∀ k,
  proper_size b →
  (∀ i, (i < fuel)%nat → occupied b (candidate rnd b (k + 2 * i)) = true) →
  new_apple rnd fuel (mkWorld b k) =
  Raise RecursionError (mkWorld b (k + 2 * fuel)).
Proof.
  induction fuel as [|fuel IH]; intros k Hp Hrej.
  - replace (k + 2 * 0)%nat with k by lia. reflexivity.
  - rewrite new_apple_frame by exact Hp.
    pose proof (Hrej O ltac:(lia)) as H0.
    replace (k + 2 * 0)%nat with k in H0 by lia. rewrite H0.
    rewrite IH; [|exact Hp|].
    + replace (S (S k) + 2 * fuel)%nat with (k + 2 * S fuel)%nat by lia.
      reflexivity.
    + intros i Hi.
      replace (S (S k) + 2 * i)%nat with (k + 2 * S i)%nat by lia.
      apply Hrej. lia.
Qed.

(** On a saturated board every frame rejects its candidate. *)
Lemma new_apple_saturated rnd fuel b k :
  proper_size b → saturated b →
  new_apple rnd fuel (mkWorld b k) =
  Raise RecursionError (mkWorld b (k + 2 * fuel)).
Proof.
  intros Hp Hsat. apply new_apple_rejected; [exact Hp|].
  intros i _. apply Hsat, candidate_within, Hp.
Qed.

(** If the first [n] attempts all hit taken cells and the next one hits a
    free cell, the recursion is exactly [n + 1] frames deep: with room for
    fewer frames the call ends with [RecursionError]. *)
Lemma new_apple_depth rnd b n : ∀ k,
  proper_size b →
  (∀ i, (i < n)%nat → occupied b (candidate rnd b (k + 2 * i)) = true) →
  occupied b (candidate rnd b (k + 2 * n)) = false →
  (∀ fuel, (fuel ≤ n)%nat →
     new_apple rnd fuel (mkWorld b k) =
     Raise RecursionError (mkWorld b (k + 2 * fuel)))
  ∧ (∀ fuel, (n < fuel)%nat →
       new_apple rnd fuel (mkWorld b k) =
       Ok tt (mkWorld (set_apples (apples b ++ [candidate rnd b (k + 2 * n)]) b)
                      (k + 2 * (n + 1)))).
Proof.
  induction n as [|n IH]; intros k Hp Hrej Hfree.
  - replace (k + 2 * 0)%nat with k in * by lia. split; intros fuel Hf.
    + replace fuel with O by lia.
      replace (k + 2 * 0)%nat with k by lia. reflexivity.
    + destruct fuel as [|fuel]; [lia|].
      rewrite new_apple_frame, Hfree by exact Hp.
      replace (k + 2 * (0 + 1))%nat with (S (S k)) by lia. reflexivity.
  - assert (H0 : occupied b (candidate rnd b k) = true).
    { specialize (Hrej O). replace (k + 2 * 0)%nat with k in Hrej by lia.
      apply Hrej. lia. }
    destruct (IH (S (S k)) Hp) as [IHd IHr].
    { intros i Hi. replace (S (S k) + 2 * i)%nat with (k + 2 * S i)%nat by lia.
      apply Hrej. lia. }
    { replace (S (S k) + 2 * n)%nat with (k + 2 * S n)%nat by lia. exact Hfree. }
    split; intros fuel Hf.
    + destruct fuel as [|fuel].
      { replace (k + 2 * 0)%nat with k by lia. reflexivity. }
      rewrite new_apple_frame, H0 by exact Hp. rewrite IHd by lia.
      replace (S (S k) + 2 * fuel)%nat with (k + 2 * S fuel)%nat by lia.
      reflexivity.
    + destruct fuel as [|fuel]; [lia|].
      rewrite new_apple_frame, H0 by exact Hp. rewrite IHr by lia.
      replace (S (S k) + 2 * n)%nat with (k + 2 * S n)%nat by lia.
      replace (S (S k) + 2 * (n + 1))%nat with (k + 2 * (S n + 1))%nat by lia.
      reflexivity.
Qed.

(** A free candidate at attempt [n] is reached with [n + 1] frames. *)
Lemma new_apple_returns rnd b n : ∀ k,
  proper_size b →
  occupied b (candidate rnd b (k + 2 * n)) = false →
  ∃ w', new_apple rnd (S n) (mkWorld b k) = Ok tt w'.
Proof.
  induction n as [|n IH]; intros k Hp Hfree.
  - replace (k + 2 * 0)%nat with k in Hfree by lia.
    rewrite new_apple_frame, Hfree by exact Hp. eauto.
  - rewrite new_apple_frame by exact Hp.
    destruct (occupied b (candidate rnd b k)); [|eauto].
    apply IH; [exact Hp|].
    replace (S (S k) + 2 * n)%nat with (k + 2 * S n)%nat by lia. exact Hfree.
Qed.

(** ** Lists: [remove] and the store into the last element *)

Lemma list_remove_Some p l :
  p ∈ l →
  ∃ l1 l2, l = l1 ++ p :: l2 ∧ (p ∉ l1) ∧ list_remove p l = Some (l1 ++ l2).
Proof.
  induction l as [|q l IH]; intros Hin.
  - inversion Hin.
  - cbn [list_remove]. destruct (decide (q = p)) as [->|Hne].
    + exists [], l. rewrite bool_decide_eq_true_2 by reflexivity.
      repeat split. apply not_elem_of_nil.
    + rewrite bool_decide_eq_false_2 by exact Hne.
      apply elem_of_cons in Hin as [Heq|Hin]; [congruence|].
      destruct (IH Hin) as (l1 & l2 & -> & Hnot & ->).
      exists (q :: l1), l2. repeat split.
      rewrite not_elem_of_cons. split; [congruence | exact Hnot].
Qed.

Lemma list_remove_None p l : p ∉ l → list_remove p l = None.
Proof.
  induction l as [|q l IH]; intros Hnot; [reflexivity|].
  apply not_elem_of_cons in Hnot as [Hne Hnot]. cbn [list_remove].
  rewrite bool_decide_eq_false_2 by congruence. rewrite IH by exact Hnot.
  reflexivity.
Qed.

Lemma insert_last_snoc {A} (l : list A) (h v : A) :
  <[Nat.pred (length (l ++ [h])) := v]> (l ++ [h]) = l ++ [v].
Proof.
  induction l as [|a l IH]; [reflexivity|].
  cbn [app length Nat.pred]. destruct (l ++ [h]) as [|a' l'] eqn:E.
  - destruct l; discriminate.
  - cbn [length Nat.pred] in IH. cbn. f_equal. exact IH.
Qed.

(** ** [update], phase by phase *)

Lemma body_last_Some w hd :
  last (body (snake (brd w))) = Some hd → body_last w = Ok hd w.
Proof. intros H. unfold body_last, bind, get_board. rewrite H. reflexivity. Qed.

Lemma body_last_None w :
  last (body (snake (brd w))) = None →
  body_last w = Raise (IndexError "deque index out of range") w.
Proof. intros H. unfold body_last, bind, get_board. rewrite H. reflexivity. Qed.

(** The reversal guard of line 68. *)
Lemma update_reversal rnd fuel d sh w hd :
  last (body (snake (brd w))) = Some hd →
  opposite (direction hd) d = true →
  update rnd fuel d sh w = Ok true w.
Proof.
  intros Hl Hop. unfold update. unfold bind at 1.
  rewrite (body_last_Some w hd Hl), Hop. reflexivity.
Qed.

(** Past the guard, [update] is lines 74-79 followed by the death test and
    the commit. *)
Lemma update_moving rnd fuel d sh w hd :
  last (body (snake (brd w))) = Some hd →
  opposite (direction hd) d = false →
  update rnd fuel d sh w =
    match eat_or_shrink rnd fuel (next_pos_of hd d) w with
    | Ok _ w1 =>
        if bool_decide (next_pos_of hd d ∈ obstacles (brd w1))
           || bool_decide (next_pos_of hd d ∈ body_points (snake (brd w1)))
        then Ok false w1
        else match last (body (snake (brd w1))) with
             | Some _ => Ok true (committed w1 d (next_pos_of hd d))
             | None => Raise (IndexError "deque index out of range") w1
             end
    | Raise e w1 => Raise e w1
    end.
Proof.
  intros Hl Hop. unfold update. unfold bind at 1.
  rewrite (body_last_Some w hd Hl), Hop. unfold bind at 1.
  rewrite (body_last_Some w hd Hl). fold (next_pos_of hd d).
  unfold bind at 1.
  destruct (eat_or_shrink rnd fuel (next_pos_of hd d) w) as [u w1|e w1];
    [|reflexivity].
  unfold bind at 1. cbn [get_board].
  destruct (bool_decide (next_pos_of hd d ∈ obstacles (brd w1))
            || bool_decide (next_pos_of hd d ∈ body_points (snake (brd w1))));
    [reflexivity|].
  unfold committed, body_last_set_direction, body_append.
  unfold bind at 1. unfold bind at 1.
  destruct (last (body (snake (brd w1)))) as [h1|] eqn:Hl1.
  - rewrite (body_last_Some w1 h1 Hl1). reflexivity.
  - rewrite (body_last_None w1 Hl1). reflexivity.
Qed.

(** Line 79: without an apple at [np] the tail is popped. *)
Lemma eat_or_shrink_shrink rnd fuel np w t rest :
  np ∉ apples (brd w) →
  body (snake (brd w)) = t :: rest →
  eat_or_shrink rnd fuel np w = Ok tt (mkWorld (set_body rest (brd w)) (drawn w)).
Proof.
  intros Hna Hb. unfold eat_or_shrink, body_popleft, bind, get_board.
  rewrite bool_decide_eq_false_2 by exact Hna. rewrite Hb. reflexivity.
Qed.

(** Lines 75-77: with an apple at [np], that apple is removed, then
    [new_apple] runs on the board without it, then the score goes up. *)
Lemma eat_or_shrink_eat rnd fuel np w :
  np ∈ apples (brd w) →
  ∃ l1 l2,
    apples (brd w) = l1 ++ np :: l2 ∧ (np ∉ l1) ∧
    eat_or_shrink rnd fuel np w =
      match new_apple rnd fuel (mkWorld (set_apples (l1 ++ l2) (brd w)) (drawn w)) with
      | Ok _ w2 => Ok tt (mkWorld (set_score (score (brd w2) + 1) (brd w2)) (drawn w2))
      | Raise e w2 => Raise e w2
      end.
Proof.
  intros Hin. destruct (list_remove_Some np _ Hin) as (l1 & l2 & Hap & Hn1 & Hrm).
  exists l1, l2. split; [exact Hap|]. split; [exact Hn1|].
  unfold eat_or_shrink. unfold bind at 1. cbn [get_board].
  rewrite bool_decide_eq_true_2 by exact Hin.
  unfold bind at 1. unfold apples_remove. unfold bind at 1. cbn [get_board].
  rewrite Hrm. cbn [put_board]. unfold bind at 1.
  destruct (new_apple rnd fuel _) as [u w2|e w2]; reflexivity.
Qed.

(** The board that lines 75-77 leave, in terms of the board before. *)
Lemma eat_or_shrink_eat_Ok rnd fuel np w u w1 :
  np ∈ apples (brd w) →
  eat_or_shrink rnd fuel np w = Ok u w1 →
  ∃ l1 l2 p,
    apples (brd w) = l1 ++ np :: l2 ∧ (np ∉ l1) ∧
    brd w1 = set_score (score (brd w) + 1)
               (set_apples (l1 ++ l2 ++ [p]) (brd w)) ∧
    within_borders (brd w) p = true ∧
    (p ∉ obstacles (brd w)) ∧ (p ∉ l1 ++ l2) ∧
    (p ∉ body_points (snake (brd w))) ∧
    (drawn w < drawn w1)%nat.
Proof.
  intros Hin Hrun.
  destruct (eat_or_shrink_eat rnd fuel np w Hin) as (l1 & l2 & Hap & Hn1 & Heq).
  rewrite Heq in Hrun. clear Heq.
  pose proof (new_apple_outcome rnd fuel (set_apples (l1 ++ l2) (brd w)) (drawn w)) as Hout.
  destruct (new_apple rnd fuel _) as [u' w2|e w2]; try discriminate.
  destruct Hout as (p & Hb & Hwb & Hocc & Hdr).
  injection Hrun as _ <-. apply occupied_false in Hocc as (Ho & Ha & Hs).
  exists l1, l2, p. cbn [brd drawn]. rewrite Hb.
  repeat split; try assumption. cbn. rewrite <- app_assoc. reflexivity.
Qed.


Lemma last_cons_snoc {A} (t : A) (rest : list A) (hd : A) :
  last (t :: rest) = Some hd →
  rest = [] ∧ t = hd ∨ ∃ mid, rest = mid ++ [hd].
Proof.
  intros Hl. destruct rest as [|r rest].
  - left. cbn in Hl. split; congruence.
  - right. rewrite last_cons_cons in Hl. apply last_Some in Hl. exact Hl.
Qed.

Lemma committed_snoc b k mid h1 d np :
  body (snake b) = mid ++ [h1] →
  committed (mkWorld b k) d np =
    mkWorld (set_body (mid ++ [mkBodyPart (point h1) d; mkBodyPart np d]) b) k.
Proof.
  intros Hb. unfold committed. cbn [brd drawn]. rewrite Hb, last_snoc.
  rewrite insert_last_snoc, <- app_assoc. reflexivity.
Qed.

(** ** Reversal *)

(** C1. On a board whose snake is not empty, [update] with the direction
    opposite to the one stored in the head segment returns [True] and leaves
    the whole state as it was: the same body, score, apples, obstacles,
    width and height (and no random value is drawn). *)
Theorem update_reversal_noop rnd fuel d sh w hd :
  last (body (snake (brd w))) = Some hd →
  opposite (direction hd) d = true →
  update rnd fuel d sh w = Ok true w.
Proof. exact (update_reversal rnd fuel d sh w hd). Qed.

Lemma update_reversal_noop_witness :
  last (body (snake start_board)) = Some (mkBodyPart (mkPoint 3 1) RIGHT)
  ∧ opposite RIGHT LEFT = true
  ∧ update (fun _ => 0) 0 LEFT false (mkWorld start_board 0)
    = Ok true (mkWorld start_board 0).
Proof.
  split; [reflexivity|]. split; [reflexivity|].
  apply (update_reversal_noop (fun _ => 0) 0%nat LEFT false
           (mkWorld start_board 0) (mkBodyPart (mkPoint 3 1) RIGHT));
    reflexivity.
Defined.

(** ** The dead parameter *)

(** C9. [shifted] is never read: from the same state and with the same
    random source, [update(direction, True)] and [update(direction, False)]
    give the same outcome, result and final state alike. *)
Theorem update_shifted_inert rnd fuel d w :
  update rnd fuel d true w = update rnd fuel d false w.
Proof. reflexivity. Qed.

(** ** Index safety *)

(** C10. With at least two segments no call of [update] raises
    [IndexError].  With exactly one segment, a call that is not a reversal
    and whose target cell holds neither an apple nor an obstacle (it cannot
    be a body cell: the only segment is one step behind it) pops the tail,
    which empties the body, and then raises [IndexError] at the store into
    the head's direction; the board is left with the empty body. *)
Theorem update_index_safety rnd fuel d sh w :
  ((2 ≤ length (body (snake (brd w))))%nat →
     ∀ msg w', update rnd fuel d sh w ≠ Raise (IndexError msg) w')
  ∧ (∀ hd, body (snake (brd w)) = [hd] →
       opposite (direction hd) d = false →
       next_pos_of hd d ∉ apples (brd w) →
       next_pos_of hd d ∉ obstacles (brd w) →
       update rnd fuel d sh w =
         Raise (IndexError "deque index out of range")
               (mkWorld (set_body [] (brd w)) (drawn w))).
Proof.
  split.
  - intros Hlen msg w' Hup.
    destruct (body (snake (brd w))) as [|t [|r rest]] eqn:Hb;
      [cbn in Hlen; lia .. |].
    assert (Hl : ∃ hd, last (body (snake (brd w))) = Some hd).
    { rewrite Hb. apply last_is_Some. discriminate. }
    destruct Hl as [hd Hl].
    destruct (opposite (direction hd) d) eqn:Hop.
    { rewrite (update_reversal rnd fuel d sh w hd Hl Hop) in Hup. discriminate. }
    rewrite (update_moving rnd fuel d sh w hd Hl Hop) in Hup.
    destruct (decide (next_pos_of hd d ∈ apples (brd w))) as [Hin|Hnin].
    + destruct (eat_or_shrink_eat rnd fuel (next_pos_of hd d) w Hin)
        as (l1 & l2 & _ & _ & Heq).
      rewrite Heq in Hup. clear Heq.
      pose proof (new_apple_outcome rnd fuel
                    (set_apples (l1 ++ l2) (brd w)) (drawn w)) as Hout.
      destruct (new_apple rnd fuel _) as [u w2|e w2].
      * destruct Hout as (p & Hb2 & _). cbn [brd] in Hup.
        rewrite Hb2 in Hup. cbn [set_score set_apples snake body] in Hup.
        rewrite Hl in Hup.
        destruct (_ || _) in Hup; discriminate.
      * destruct Hout as [_ [[[m ->] _]| ->]]; discriminate.
    + rewrite (eat_or_shrink_shrink rnd fuel _ w t (r :: rest) Hnin Hb) in Hup.
      cbn [brd set_body snake body] in Hup.
      destruct (last (r :: rest)) eqn:Hlr.
      * destruct (_ || _) in Hup; discriminate.
      * apply last_None in Hlr. discriminate.
  - intros hd Hb Hop Hna Hno.
    assert (Hl : last (body (snake (brd w))) = Some hd) by (rewrite Hb; reflexivity).
    rewrite (update_moving rnd fuel d sh w hd Hl Hop).
    rewrite (eat_or_shrink_shrink rnd fuel _ w hd [] Hna Hb).
    cbn [brd set_body snake body obstacles body_points fmap list_fmap last].
    rewrite bool_decide_eq_false_2 by exact Hno.
    rewrite bool_decide_eq_false_2 by apply not_elem_of_nil.
    reflexivity.
Qed.

Lemma update_index_safety_witness :
  (∀ msg w',
     update (fun _ => 0) 1 UP false (mkWorld start_board 0)
     ≠ Raise (IndexError msg) w')
  ∧ update (fun _ => 0) 1 RIGHT false
      (mkWorld (set_body [mkBodyPart (mkPoint 3 1) RIGHT] start_board) 0)
    = Raise (IndexError "deque index out of range")
        (mkWorld (set_body [] start_board) 0).
Proof.
  split.
  - apply (proj1 (update_index_safety (fun _ => 0) 1%nat UP false
                    (mkWorld start_board 0))).
    vm_compute. lia.
  - apply (proj2 (update_index_safety (fun _ => 0) 1%nat RIGHT false
                    (mkWorld (set_body [mkBodyPart (mkPoint 3 1) RIGHT]
                                       start_board) 0))
             (mkBodyPart (mkPoint 3 1) RIGHT)).
    + reflexivity.
    + reflexivity.
    + decide_by_eval.
    + decide_by_eval.
Defined.

(** ** Death *)

Lemma eat_or_shrink_keeps rnd fuel np w u w1 :
  body (snake (brd w)) ≠ [] →
  eat_or_shrink rnd fuel np w = Ok u w1 →
  snake (brd w1) = mkSnake (adjusted_body (brd w) np)
  ∧ obstacles (brd w1) = obstacles (brd w)
  ∧ width (brd w1) = width (brd w)
  ∧ height (brd w1) = height (brd w).
Proof.
  intros Hne Hrun. unfold adjusted_body.
  destruct (decide (np ∈ apples (brd w))) as [Hin|Hnin].
  - rewrite bool_decide_eq_true_2 by exact Hin.
    destruct (eat_or_shrink_eat_Ok rnd fuel np w u w1 Hin Hrun)
      as (l1 & l2 & p & _ & _ & -> & _).
    cbn. destruct (snake (brd w)). repeat split.
  - rewrite bool_decide_eq_false_2 by exact Hnin.
    destruct (body (snake (brd w))) as [|t rest] eqn:Hb; [congruence|].
    rewrite (eat_or_shrink_shrink rnd fuel np w t rest Hnin Hb) in Hrun.
    injection Hrun as _ <-. repeat split.
Qed.

(** After lines 74-79 have run, the rest of [update] is decided by the
    death test alone. *)
Lemma update_after_adjust rnd fuel d sh w hd u w1 :
  last (body (snake (brd w))) = Some hd →
  opposite (direction hd) d = false →
  eat_or_shrink rnd fuel (next_pos_of hd d) w = Ok u w1 →
  (death_cell (brd w) (next_pos_of hd d) →
     update rnd fuel d sh w = Ok false w1)
  ∧ (¬ death_cell (brd w) (next_pos_of hd d) →
     update rnd fuel d sh w =
       match last (body (snake (brd w1))) with
       | Some _ => Ok true (committed w1 d (next_pos_of hd d))
       | None => Raise (IndexError "deque index out of range") w1
       end).
Proof.
  intros Hl Hop Hrun.
  assert (Hne : body (snake (brd w)) ≠ []).
  { intros E. rewrite E in Hl. discriminate. }
  destruct (eat_or_shrink_keeps rnd fuel _ w u w1 Hne Hrun) as (Hs & Ho & _).
  rewrite (update_moving rnd fuel d sh w hd Hl Hop), Hrun, Hs, Ho.
  unfold death_cell. split; intros Hd.
  - replace (_ || _) with true; [reflexivity|].
    symmetry. apply orb_true_iff. rewrite !bool_decide_eq_true. exact Hd.
  - replace (_ || _) with false; [reflexivity|].
    symmetry. apply orb_false_iff. rewrite !bool_decide_eq_false. tauto.
Qed.

(** A call that returns has run lines 74-79 to their end. *)
Lemma update_Ok_adjusted rnd fuel d sh w hd r w' :
  last (body (snake (brd w))) = Some hd →
  opposite (direction hd) d = false →
  update rnd fuel d sh w = Ok r w' →
  ∃ w1, eat_or_shrink rnd fuel (next_pos_of hd d) w = Ok tt w1.
Proof.
  intros Hl Hop Hup. rewrite (update_moving rnd fuel d sh w hd Hl Hop) in Hup.
  destruct (eat_or_shrink rnd fuel (next_pos_of hd d) w) as [[] w1|e w1];
    [eauto | discriminate].
Qed.

(** Lines 75-77 in terms of what [list.remove] leaves. *)
Lemma eat_or_shrink_remove rnd fuel np w l :
  list_remove np (apples (brd w)) = Some l →
  eat_or_shrink rnd fuel np w =
    match new_apple rnd fuel (mkWorld (set_apples l (brd w)) (drawn w)) with
    | Ok _ w2 => Ok tt (mkWorld (set_score (score (brd w2) + 1) (brd w2)) (drawn w2))
    | Raise e w2 => Raise e w2
    end.
Proof.
  intros Hrm.
  assert (Hin : np ∈ apples (brd w)).
  { destruct (decide (np ∈ apples (brd w))) as [Hin|Hnin]; [exact Hin|].
    rewrite (list_remove_None _ _ Hnin) in Hrm. discriminate. }
  destruct (eat_or_shrink_eat rnd fuel np w Hin) as (l1 & l2 & Hap & Hn1 & ->).
  destruct (list_remove_Some np _ Hin) as (l1' & l2' & _ & _ & Hrm').
  assert (Hrm2 : list_remove np (apples (brd w)) = Some (l1 ++ l2)).
  { clear Hrm Hrm'. rewrite Hap. clear Hap.
    induction l1 as [|q l1 IH]; cbn [list_remove app].
    - rewrite bool_decide_eq_true_2 by reflexivity. reflexivity.
    - apply not_elem_of_cons in Hn1 as [Hne Hn1].
      rewrite bool_decide_eq_false_2 by congruence. rewrite (IH Hn1).
      reflexivity. }
  rewrite Hrm in Hrm2. injection Hrm2 as ->. reflexivity.
Qed.

(** Lines 75-77 run to their end as soon as the random source offers a
    free cell and the room for the recursion reaches that attempt. *)
Lemma eat_or_shrink_returns rnd np w l n fuel :
  list_remove np (apples (brd w)) = Some l →
  proper_size (brd w) →
  occupied (set_apples l (brd w)) (candidate rnd (brd w) (drawn w + 2 * n)) = false →
  (n < fuel)%nat →
  ∃ w1, eat_or_shrink rnd fuel np w = Ok tt w1.
Proof.
  intros Hrm Hp Hfree Hf. rewrite (eat_or_shrink_remove rnd fuel np w l Hrm).
  destruct (new_apple_returns rnd (set_apples l (brd w)) n (drawn w) Hp Hfree)
    as [w2 Hrun].
  rewrite (new_apple_fuel_mono rnd (S n) fuel _ tt w2 ltac:(lia) Hrun). eauto.
Qed.




(** ** Moving without eating *)

(** C4. For a call of [update] that is not a reversal and whose target
    cell [np] holds no apple: the call returns [True] exactly when the body
    has a tail [t] before the head, [np] is no obstacle and no point of the
    body without [t]; the final body is then the old one without [t], with
    the old head's direction overwritten by the input direction, and with a
    new head at [np] facing that direction.  Length, score, apples and
    obstacles are unchanged.  The basic-move scenario is the last part. *)
Theorem update_plain_move :
  (∀ rnd fuel d sh w hd w',
     last (body (snake (brd w))) = Some hd →
     opposite (direction hd) d = false →
     next_pos_of hd d ∉ apples (brd w) →
     (update rnd fuel d sh w = Ok true w' ↔
      ∃ t mid,
        body (snake (brd w)) = t :: mid ++ [hd]
        ∧ (next_pos_of hd d ∉ obstacles (brd w))
        ∧ (next_pos_of hd d ∉ body_points (mkSnake (mid ++ [hd])))
        ∧ w' = mkWorld
                 (set_body (mid ++ [mkBodyPart (point hd) d;
                                    mkBodyPart (next_pos_of hd d) d])
                           (brd w))
                 (drawn w)))
  ∧ (∀ rnd fuel d sh w hd w',
       last (body (snake (brd w))) = Some hd →
       opposite (direction hd) d = false →
       next_pos_of hd d ∉ apples (brd w) →
       update rnd fuel d sh w = Ok true w' →
       length (body (snake (brd w'))) = length (body (snake (brd w)))
       ∧ score (brd w') = score (brd w)
       ∧ apples (brd w') = apples (brd w)
       ∧ obstacles (brd w') = obstacles (brd w)
       ∧ last (body (snake (brd w'))) = Some (mkBodyPart (next_pos_of hd d) d)
       ∧ body (snake (brd w')) !! (length (body (snake (brd w))) - 2)%nat
         = Some (mkBodyPart (point hd) d))
  ∧ (∀ rnd fuel sh obs sc k,
       mkPoint 4 1 ∉ obs →
       update rnd fuel RIGHT sh
         (mkWorld (mkBoard 30 20 obs (mkSnake start_body) [mkPoint 15 10] sc) k)
       = Ok true
           (mkWorld
              (mkBoard 30 20 obs
                 (mkSnake [mkBodyPart (mkPoint 2 1) RIGHT;
                           mkBodyPart (mkPoint 3 1) RIGHT;
                           mkBodyPart (mkPoint 4 1) RIGHT])
                 [mkPoint 15 10] sc) k)).
Proof.
  assert (Hiff : ∀ rnd fuel d sh w hd w',
     last (body (snake (brd w))) = Some hd →
     opposite (direction hd) d = false →
     next_pos_of hd d ∉ apples (brd w) →
     (update rnd fuel d sh w = Ok true w' ↔
      ∃ t mid,
        body (snake (brd w)) = t :: mid ++ [hd]
        ∧ (next_pos_of hd d ∉ obstacles (brd w))
        ∧ (next_pos_of hd d ∉ body_points (mkSnake (mid ++ [hd])))
        ∧ w' = mkWorld
                 (set_body (mid ++ [mkBodyPart (point hd) d;
                                    mkBodyPart (next_pos_of hd d) d])
                           (brd w))
                 (drawn w))).
  { intros rnd fuel d sh w hd w' Hl Hop Hna.
    destruct (body (snake (brd w))) as [|t rest] eqn:Hb; [discriminate|].
    assert (Hl0 : last (body (snake (brd w))) = Some hd)
      by (rewrite Hb; exact Hl).
    pose proof (eat_or_shrink_shrink rnd fuel _ w t rest Hna Hb) as Hrun.
    destruct (update_after_adjust rnd fuel d sh w hd tt _ Hl0 Hop Hrun)
      as [Hdead Halive].
    assert (Hdc : death_cell (brd w) (next_pos_of hd d) ↔
                  next_pos_of hd d ∈ obstacles (brd w)
                  ∨ next_pos_of hd d ∈ body_points (mkSnake rest)).
    { unfold death_cell, adjusted_body.
      rewrite bool_decide_eq_false_2 by exact Hna. rewrite Hb. reflexivity. }
    split.
    - intros Hup.
      destruct (decide (death_cell (brd w) (next_pos_of hd d))) as [Hd|Hd].
      { rewrite (Hdead Hd) in Hup. discriminate. }
      rewrite (Halive Hd) in Hup. cbn [brd set_body snake body] in Hup.
      destruct (last_cons_snoc t rest hd Hl) as [[-> ->]|[mid ->]].
      + discriminate.
      + rewrite last_snoc in Hup. injection Hup as <-.
        exists t, mid. rewrite Hdc in Hd.
        repeat split; try tauto.
        rewrite (committed_snoc _ _ mid hd) by reflexivity. reflexivity.
    - intros (t' & mid & Heq & Hno & Hnb & ->).
      injection Heq as <- ->.
      rewrite Halive by (rewrite Hdc; tauto).
      cbn [brd set_body snake body]. rewrite last_snoc.
      rewrite (committed_snoc _ _ mid hd) by reflexivity. reflexivity. }
  split; [exact Hiff|]. split.
  - intros rnd fuel d sh w hd w' Hl Hop Hna Hup.
    apply (Hiff rnd fuel d sh w hd w' Hl Hop Hna) in Hup
      as (t & mid & Hb & _ & _ & ->).
    cbn [brd set_body snake body score apples obstacles]. rewrite Hb.
    repeat split.
    + cbn [length]. rewrite !length_app. cbn [length]. lia.
    + replace (mid ++ [mkBodyPart (point hd) d; mkBodyPart (next_pos_of hd d) d])
        with ((mid ++ [mkBodyPart (point hd) d]) ++ [mkBodyPart (next_pos_of hd d) d])
        by (rewrite <- app_assoc; reflexivity).
      apply last_snoc.
    + cbn [length]. rewrite length_app. cbn [length].
      replace (S (length mid + 1) - 2)%nat with (length mid + 0)%nat by lia.
      rewrite lookup_app_r by lia.
      replace (length mid + 0 - length mid)%nat with O by lia. reflexivity.
  - intros rnd fuel sh obs sc k Hno.
    apply (Hiff rnd fuel RIGHT sh _ (mkBodyPart (mkPoint 3 1) RIGHT)).
    + reflexivity.
    + reflexivity.
    + cbn. decide_by_eval.
    + exists (mkBodyPart (mkPoint 1 1) RIGHT), [mkBodyPart (mkPoint 2 1) RIGHT].
      repeat split.
      * exact Hno.
      * cbn. decide_by_eval.
Qed.

Lemma update_plain_move_witness :
  last (body (snake start_board)) = Some (mkBodyPart (mkPoint 3 1) RIGHT)
  ∧ opposite RIGHT DOWN = false
  ∧ (mkPoint 3 2 ∉ apples start_board)
  ∧ update (fun _ => 0) 0 DOWN false (mkWorld start_board 0)
    = Ok true
        (mkWorld
           (set_body [mkBodyPart (mkPoint 2 1) RIGHT;
                      mkBodyPart (mkPoint 3 1) DOWN;
                      mkBodyPart (mkPoint 3 2) DOWN] start_board) 0).
Proof.
  split; [reflexivity|]. split; [reflexivity|]. split; [decide_by_eval|].
  apply (proj1 update_plain_move (fun _ => 0) 0%nat DOWN false
           (mkWorld start_board 0) (mkBodyPart (mkPoint 3 1) RIGHT)).
  - reflexivity.
  - reflexivity.
  - decide_by_eval.
  - exists (mkBodyPart (mkPoint 1 1) RIGHT), [mkBodyPart (mkPoint 2 1) RIGHT].
    split; [reflexivity|]. split; [decide_by_eval|].
    split; [decide_by_eval|]. reflexivity.
Defined.

(** ** Apple placement *)

(** C5. A call of [new_apple] that returns has appended exactly one point
    to the apples; that point lies in [0,width) x [0,height) and was, when
    the call started, no obstacle, no apple and no point of the snake's
    body.  Width, height, obstacles, snake and score are as before. *)
Theorem new_apple_appends_free_cell rnd fuel w u w' :
  new_apple rnd fuel w = Ok u w' →
  ∃ p,
    apples (brd w') = apples (brd w) ++ [p]
    ∧ (0 ≤ x p ∧ x p < width (brd w)) ∧ (0 ≤ y p ∧ y p < height (brd w))
    ∧ (p ∉ obstacles (brd w)) ∧ (p ∉ apples (brd w))
    ∧ (p ∉ body_points (snake (brd w)))
    ∧ width (brd w') = width (brd w) ∧ height (brd w') = height (brd w)
    ∧ obstacles (brd w') = obstacles (brd w)
    ∧ snake (brd w') = snake (brd w)
    ∧ score (brd w') = score (brd w).
Proof.
  intros Hrun. destruct w as [b k].
  pose proof (new_apple_outcome rnd fuel b k) as Hout. rewrite Hrun in Hout.
  destruct Hout as (p & Hb & Hwb & Hocc & _).
  apply within_borders_spec in Hwb. apply occupied_false in Hocc.
  exists p. cbn [brd]. rewrite Hb. cbn. tauto.
Qed.

Lemma new_apple_appends_free_cell_witness :
  new_apple (fun _ => 5) 1 (mkWorld start_board 0)
  = Ok tt (mkWorld (set_apples [mkPoint 15 10; mkPoint 5 5] start_board) 2)
  ∧ ∃ p,
      [mkPoint 15 10; mkPoint 5 5] = [mkPoint 15 10] ++ [p]
      ∧ (0 ≤ x p ∧ x p < 30) ∧ (0 ≤ y p ∧ y p < 20)
      ∧ (p ∉ obstacles start_board) ∧ (p ∉ [mkPoint 15 10])
      ∧ (p ∉ body_points (snake start_board)).
Proof.
  assert (Hrun : new_apple (fun _ => 5) 1 (mkWorld start_board 0)
                 = Ok tt (mkWorld (set_apples [mkPoint 15 10; mkPoint 5 5]
                                              start_board) 2))
    by (vm_compute; reflexivity).
  split; [exact Hrun|].
  destruct (new_apple_appends_free_cell _ _ _ _ _ Hrun)
    as (p & Ha & Hx & Hy & Ho & Hap & Hs & _).
  exists p. repeat split; tauto.
Defined.

(** ** Termination of [new_apple] *)

(** A call that ends with [RecursionError] has used all its frames, each
    on a rejected candidate. *)
Lemma new_apple_RecursionError rnd fuel b : ∀ k w',
  new_apple rnd fuel (mkWorld b k) = Raise RecursionError w' →
  w' = mkWorld b (k + 2 * fuel)
  ∧ ∀ i, (i < fuel)%nat → occupied b (candidate rnd b (k + 2 * i)) = true.
Proof.
  induction fuel as [|fuel IH]; intros k w' Hrun.
  - cbn in Hrun. injection Hrun as <-.
    replace (k + 2 * 0)%nat with k by lia. split; [reflexivity|]. lia.
  - destruct (decide (proper_size b)) as [Hp|Hp].
    + rewrite new_apple_frame in Hrun by exact Hp.
      destruct (occupied b (candidate rnd b k)) eqn:Hocc; [|discriminate].
      destruct (IH _ _ Hrun) as [-> Hrej]. split.
      * f_equal. lia.
      * intros [|i] Hi.
        -- replace (k + 2 * 0)%nat with k by lia. exact Hocc.
        -- replace (k + 2 * S i)%nat with (S (S k) + 2 * i)%nat by lia.
           apply Hrej. lia.
    + destruct (new_apple_improper rnd fuel b k Hp) as (msg & k' & Hr).
      rewrite Hr in Hrun. discriminate.
Qed.

(** C7, as the code has it.  [new_apple] retries by recursion and has no
    cap of its own; the interpreter's recursion limit is the only bound.  On
    a board with at least one cell of grid: if every cell of
    [0,width) x [0,height) is an obstacle, an apple or a body point, the call
    never returns, whatever the random source and whatever room the limit
    leaves: every candidate is rejected and the call ends with
    [RecursionError], the board untouched.  If the random source yields a
    free cell at some attempt, the call returns as soon as the limit leaves
    room for that many frames plus one; when the first [n] attempts are
    rejected and the next one is free, it returns with room for more than
    [n] frames and ends with [RecursionError] otherwise.  A call that ends
    with [RecursionError] has had every one of its candidates rejected, and
    no other exception is raised. *)
Theorem new_apple_termination rnd b k :
  proper_size b →
  (saturated b → ∀ fuel,
     new_apple rnd fuel (mkWorld b k)
     = Raise RecursionError (mkWorld b (k + 2 * fuel)))
  ∧ (∀ n, occupied b (candidate rnd b (k + 2 * n)) = false →
       ∃ w', ∀ fuel, (n < fuel)%nat →
         new_apple rnd fuel (mkWorld b k) = Ok tt w')
  ∧ (∀ n,
       (∀ i, (i < n)%nat → occupied b (candidate rnd b (k + 2 * i)) = true) →
       occupied b (candidate rnd b (k + 2 * n)) = false →
       (∀ fuel, (fuel ≤ n)%nat →
          new_apple rnd fuel (mkWorld b k)
          = Raise RecursionError (mkWorld b (k + 2 * fuel)))
       ∧ (∀ fuel, (n < fuel)%nat →
            new_apple rnd fuel (mkWorld b k) =
            Ok tt (mkWorld
                     (set_apples (apples b ++ [candidate rnd b (k + 2 * n)]) b)
                     (k + 2 * (n + 1)))))
  ∧ (∀ fuel e w', new_apple rnd fuel (mkWorld b k) = Raise e w' →
       e = RecursionError
       ∧ w' = mkWorld b (k + 2 * fuel)
       ∧ ∀ i, (i < fuel)%nat → occupied b (candidate rnd b (k + 2 * i)) = true).
Proof.
  intros Hp. split; [|split; [|split]].
  - intros Hsat fuel. apply new_apple_saturated; assumption.
  - intros n Hfree.
    destruct (new_apple_returns rnd b n k Hp Hfree) as [w' Hrun].
    exists w'. intros fuel Hf.
    apply (new_apple_fuel_mono rnd (S n) fuel _ tt w'); [lia | exact Hrun].
  - intros n Hrej Hfree. apply new_apple_depth; assumption.
  - intros fuel e w' Hrun.
    pose proof (new_apple_outcome rnd fuel b k) as Hout. rewrite Hrun in Hout.
    destruct Hout as [_ [[_ Hn]| ->]]; [contradiction|].
    split; [reflexivity|]. apply new_apple_RecursionError. exact Hrun.
Qed.

Lemma new_apple_termination_witness :
  proper_size walled_in
  ∧ (∀ fuel, new_apple (fun _ => 7) fuel (mkWorld walled_in 0)
             = Raise RecursionError (mkWorld walled_in (0 + 2 * fuel)))
  ∧ (∃ w', ∀ fuel, (2 < fuel)%nat →
       new_apple (fun k => if (k <? 4)%nat then 0 else 5) fuel
         (mkWorld start_board 0) = Ok tt w').
Proof.
  assert (Hp : proper_size walled_in) by (unfold proper_size; cbn; lia).
  split; [exact Hp|]. split.
  - apply (proj1 (new_apple_termination (fun _ => 7) walled_in 0 Hp)).
    intros [px py] Hin. apply within_borders_spec in Hin. cbn in Hin.
    replace px with 0 by lia. replace py with 0 by lia. reflexivity.
  - apply (proj1 (proj2 (new_apple_termination
                           (fun k => if (k <? 4)%nat then 0 else 5)
                           start_board 0 ltac:(unfold proper_size; cbn; lia)))
             2%nat).
    vm_compute. reflexivity.
Defined.

(** C7 as worded fails.  On the one-cell board that is all wall the call
    does not go on for ever: whatever room the recursion limit leaves, and
    so with the 996 frames of a call from the top level under the default
    limit of 1000, it ends with [RecursionError].  And a random source that
    does yield a free cell of the board of [main], at its attempt 1201, does
    not make the call return unless the limit leaves room for more than
    1200 frames: otherwise it ends with [RecursionError], every candidate
    rejected. *)
Lemma new_apple_hits_recursion_limit :
  saturated walled_in
  ∧ (∀ fuel, new_apple (fun _ => 7) fuel (mkWorld walled_in 0)
             = Raise RecursionError (mkWorld walled_in (2 * fuel)))
  ∧ new_apple (fun _ => 7) 996 (mkWorld walled_in 0)
    = Raise RecursionError (mkWorld walled_in 1992)
  ∧ occupied start_board (candidate late start_board 2400) = false
  ∧ (∀ fuel, (fuel ≤ 1200)%nat →
       new_apple late fuel (mkWorld start_board 0)
       = Raise RecursionError (mkWorld start_board (2 * fuel)))
  ∧ new_apple late 996 (mkWorld start_board 0)
    = Raise RecursionError (mkWorld start_board 1992).
Proof.
  assert (Hp : proper_size walled_in) by (unfold proper_size; cbn; lia).
  assert (Hsat : saturated walled_in).
  { intros [px py] Hin. apply within_borders_spec in Hin. cbn in Hin.
    replace px with 0 by lia. replace py with 0 by lia. reflexivity. }
  assert (Hall : ∀ fuel, new_apple (fun _ => 7) fuel (mkWorld walled_in 0)
                         = Raise RecursionError (mkWorld walled_in (2 * fuel))).
  { intros fuel. exact (new_apple_saturated (fun _ => 7) fuel walled_in 0 Hp Hsat). }
  assert (Hlate : ∀ fuel, (fuel ≤ 1200)%nat →
            new_apple late fuel (mkWorld start_board 0)
            = Raise RecursionError (mkWorld start_board (2 * fuel))).
  { intros fuel Hf.
    apply (new_apple_rejected late start_board fuel 0);
      [unfold proper_size; cbn; lia|].
    intros i Hi. unfold candidate, late.
    rewrite (proj2 (Nat.ltb_lt (0 + 2 * i) 2400)) by lia.
    rewrite (proj2 (Nat.ltb_lt (S (0 + 2 * i)) 2400)) by lia.
    vm_compute. reflexivity. }
  split; [exact Hsat|]. split; [exact Hall|]. split; [exact (Hall 996%nat)|].
  split; [vm_compute; reflexivity|]. split; [exact Hlate|].
  apply (Hlate 996%nat). lia.
Qed.

(** ** Eating *)

(** What an apple move that survives does: the first apple equal to [np]
    is removed, one apple [p] is appended, free with respect to the
    obstacles, the remaining apples and the body before the new head; the
    body gains the new head and the score one point.  Nothing keeps [p]
    away from [np] itself. *)
Lemma update_eat_apple rnd fuel d sh w hd w' :
  last (body (snake (brd w))) = Some hd →
  opposite (direction hd) d = false →
  next_pos_of hd d ∈ apples (brd w) →
  update rnd fuel d sh w = Ok true w' →
  ∃ l1 l2 p mid,
    apples (brd w) = l1 ++ next_pos_of hd d :: l2
    ∧ (next_pos_of hd d ∉ l1)
    ∧ apples (brd w') = l1 ++ l2 ++ [p]
    ∧ within_borders (brd w) p = true
    ∧ (p ∉ obstacles (brd w)) ∧ (p ∉ l1 ++ l2)
    ∧ (p ∉ body_points (snake (brd w)))
    ∧ body (snake (brd w)) = mid ++ [hd]
    ∧ body (snake (brd w')) =
        mid ++ [mkBodyPart (point hd) d; mkBodyPart (next_pos_of hd d) d]
    ∧ length (body (snake (brd w'))) = S (length (body (snake (brd w))))
    ∧ score (brd w') = score (brd w) + 1.
Proof.
  intros Hl Hop Hin Hup.
  destruct (update_Ok_adjusted rnd fuel d sh w hd true w' Hl Hop Hup)
    as [w1 Hrun].
  destruct (eat_or_shrink_eat_Ok rnd fuel _ w tt w1 Hin Hrun)
    as (l1 & l2 & p & Hap & Hn1 & Hb1 & Hwb & Ho & Ha & Hs & _).
  destruct (update_after_adjust rnd fuel d sh w hd tt w1 Hl Hop Hrun)
    as [Hdead Halive].
  destruct (decide (death_cell (brd w) (next_pos_of hd d))) as [Hd|Hd].
  { rewrite (Hdead Hd) in Hup. discriminate. }
  rewrite (Halive Hd) in Hup. clear Hdead Halive.
  apply last_Some in Hl as [mid Hmid].
  destruct w1 as [b1 k1]. cbn [brd] in Hb1, Hup. subst b1.
  cbn [set_score set_apples snake body] in Hup. rewrite Hmid, last_snoc in Hup.
  injection Hup as <-.
  rewrite (committed_snoc _ _ mid hd) by (cbn; exact Hmid).
  exists l1, l2, p, mid. cbn [brd set_body set_score set_apples snake body
                                apples score].
  repeat split; try assumption.
  rewrite Hmid, !length_app. cbn. lia.
Qed.

(** With apples free of duplicates, the consumed point stays out of the
    apples unless the replacement is drawn onto it. *)
Lemma update_eat_apple_gone rnd fuel d sh w hd w' :
  last (body (snake (brd w))) = Some hd →
  opposite (direction hd) d = false →
  next_pos_of hd d ∈ apples (brd w) →
  update rnd fuel d sh w = Ok true w' →
  NoDup (apples (brd w)) →
  last (apples (brd w')) ≠ Some (next_pos_of hd d) →
  next_pos_of hd d ∉ apples (brd w').
Proof.
  intros Hl Hop Hin Hup Hnd Hlast.
  destruct (update_eat_apple rnd fuel d sh w hd w' Hl Hop Hin Hup)
    as (l1 & l2 & p & mid & Hap & Hn1 & Hap' & _).
  rewrite Hap' in *. rewrite app_assoc, last_snoc in Hlast.
  rewrite Hap in Hnd. apply NoDup_app in Hnd as (_ & _ & Hnd2).
  apply NoDup_cons in Hnd2 as [Hn2 _].
  rewrite !elem_of_app, list_elem_of_singleton.
  intros [H|[H|H]]; [tauto | tauto | congruence].
Qed.

(** C3, evaluated.  On the board of [main], one step above its apple, the
    move DOWN eats the apple at (15,10); when the two draws of [new_apple]
    are 15 and 10 the replacement is accepted at (15,10), the cell the head
    enters in the same call.  The move survives, the snake has four segments
    and the score is 1, but the consumed point is still an apple and the new
    apple lies on the snake.  That board is reached from [init(20, 30)] by
    twelve moves right and eight down. *)
Theorem update_eat_respawn_under_head :
  (∃ w0, updates unlucky 1 (replicate 12 RIGHT ++ replicate 8 DOWN)
           (mkWorld start_board 0) = Ok true w0
         ∧ w0 = mkWorld before_apple 0)
  ∧ ∃ w',
      update unlucky 1 DOWN false (mkWorld before_apple 0) = Ok true w'
      ∧ apples (brd w') = [mkPoint 15 10]
      ∧ last (body (snake (brd w'))) = Some (mkBodyPart (mkPoint 15 10) DOWN)
      ∧ length (body (snake (brd w'))) = 4%nat
      ∧ score (brd w') = 1
      ∧ mkPoint 15 10 ∈ apples (brd w')
      ∧ mkPoint 15 10 ∈ body_points (snake (brd w')).
Proof.
  split.
  - eexists. split; vm_compute; reflexivity.
  - eexists. split; [vm_compute; reflexivity|].
    cbn [brd apples snake body score].
    repeat split; try reflexivity; decide_by_eval.
Qed.

(** ** One call, one outcome *)

(** An apple move onto a death cell, once lines 75-77 have run. *)
Lemma update_apple_death rnd fuel d sh w hd w1 :
  last (body (snake (brd w))) = Some hd →
  opposite (direction hd) d = false →
  next_pos_of hd d ∈ apples (brd w) →
  next_pos_of hd d ∈ obstacles (brd w)
  ∨ next_pos_of hd d ∈ body_points (snake (brd w)) →
  eat_or_shrink rnd fuel (next_pos_of hd d) w = Ok tt w1 →
  update rnd fuel d sh w = Ok false w1
  ∧ snake (brd w1) = snake (brd w)
  ∧ obstacles (brd w1) = obstacles (brd w)
  ∧ width (brd w1) = width (brd w)
  ∧ height (brd w1) = height (brd w)
  ∧ score (brd w1) = score (brd w) + 1
  ∧ ∃ l1 l2 p,
      apples (brd w) = l1 ++ next_pos_of hd d :: l2
      ∧ (next_pos_of hd d ∉ l1)
      ∧ list_remove (next_pos_of hd d) (apples (brd w)) = Some (l1 ++ l2)
      ∧ apples (brd w1) = (l1 ++ l2) ++ [p].
Proof.
  intros Hl Hop Hin Hdie Hrun.
  assert (Hd : death_cell (brd w) (next_pos_of hd d)).
  { unfold death_cell, adjusted_body.
    rewrite bool_decide_eq_true_2 by exact Hin.
    destruct (snake (brd w)). exact Hdie. }
  destruct (update_after_adjust rnd fuel d sh w hd tt w1 Hl Hop Hrun)
    as [Hdead _].
  split; [exact (Hdead Hd)|].
  destruct (list_remove_Some _ _ Hin) as (l1 & l2 & Hap & Hn1 & Hrm).
  rewrite (eat_or_shrink_remove rnd fuel _ w _ Hrm) in Hrun.
  pose proof (new_apple_outcome rnd fuel
                (set_apples (l1 ++ l2) (brd w)) (drawn w)) as Hout.
  destruct (new_apple rnd fuel _) as [u w2|e w2]; try discriminate.
  destruct Hout as (p & Hb2 & _). injection Hrun as <-.
  cbn [brd]. rewrite Hb2.
  cbn [set_score set_apples snake obstacles width height score apples].
  repeat split. exists l1, l2, p. auto.
Qed.

(** The ways a call of [update] raises, and what each leaves behind:
    from an empty body the read of the head fails at once; an apple move
    whose [new_apple] raises leaves the apple removed and nothing else
    done; a move of a one-segment snake onto a free cell pops that segment
    and fails at the store into the head. *)
Lemma update_Raise_cases rnd fuel d sh w e w' :
  update rnd fuel d sh w = Raise e w' →
  (body (snake (brd w)) = []
   ∧ e = IndexError "deque index out of range" ∧ w' = w)
  ∨ ∃ hd,
      last (body (snake (brd w))) = Some hd
      ∧ opposite (direction hd) d = false
      ∧ ((∃ l, list_remove (next_pos_of hd d) (apples (brd w)) = Some l
               ∧ brd w' = set_apples l (brd w)
               ∧ ((∃ msg, e = ValueError msg) ∧ ¬ proper_size (brd w)
                  ∨ e = RecursionError ∧ drawn w' = (drawn w + 2 * fuel)%nat))
         ∨ ((next_pos_of hd d ∉ apples (brd w))
            ∧ body (snake (brd w)) = [hd]
            ∧ (next_pos_of hd d ∉ obstacles (brd w))
            ∧ e = IndexError "deque index out of range"
            ∧ w' = mkWorld (set_body [] (brd w)) (drawn w))).
Proof.
  intros Hup.
  destruct (last (body (snake (brd w)))) as [hd|] eqn:Hl.
  2:{ left. apply last_None in Hl. split; [exact Hl|].
      unfold update in Hup. unfold bind at 1 in Hup.
      rewrite (body_last_None w) in Hup by (rewrite Hl; reflexivity).
      injection Hup as <- <-. auto. }
  right. exists hd. split; [reflexivity|].
  destruct (opposite (direction hd) d) eqn:Hop.
  { rewrite (update_reversal rnd fuel d sh w hd Hl Hop) in Hup. discriminate. }
  split; [reflexivity|].
  rewrite (update_moving rnd fuel d sh w hd Hl Hop) in Hup.
  destruct (decide (next_pos_of hd d ∈ apples (brd w))) as [Hin|Hnin].
  - left. destruct (list_remove_Some _ _ Hin) as (l1 & l2 & _ & _ & Hrm).
    exists (l1 ++ l2). split; [exact Hrm|].
    rewrite (eat_or_shrink_remove rnd fuel _ w _ Hrm) in Hup.
    pose proof (new_apple_outcome rnd fuel
                  (set_apples (l1 ++ l2) (brd w)) (drawn w)) as Hout.
    destruct (new_apple rnd fuel _) as [u w2|e2 w2] eqn:Hrun.
    + destruct Hout as (p & Hb2 & _). cbn [brd] in Hup. rewrite Hb2 in Hup.
      cbn [set_score set_apples snake body] in Hup. rewrite Hl in Hup.
      destruct (_ || _) in Hup; discriminate.
    + injection Hup as <- <-. destruct Hout as [Hb2 [[Hm Hn]| ->]].
      * split; [exact Hb2|]. left. split; [exact Hm | exact Hn].
      * split; [exact Hb2|]. right. split; [reflexivity|].
        destruct (new_apple_RecursionError rnd fuel _ _ _ Hrun) as [-> _].
        reflexivity.
  - right. split; [exact Hnin|].
    destruct (body (snake (brd w))) as [|t rest] eqn:Hb; [discriminate|].
    rewrite (eat_or_shrink_shrink rnd fuel _ w t rest Hnin Hb) in Hup.
    cbn [brd set_body snake body obstacles] in Hup.
    destruct (bool_decide (next_pos_of hd d ∈ obstacles (brd w))) eqn:Hobs;
      [discriminate|].
    apply bool_decide_eq_false in Hobs. cbn [orb] in Hup.
    destruct (bool_decide _) in Hup; [discriminate|].
    destruct (last_cons_snoc t rest hd Hl) as [[-> ->]|[mid ->]].
    + cbn [last] in Hup. injection Hup as <- <-. auto.
    + rewrite last_snoc in Hup. discriminate.
Qed.

(** C8, as the code has it.  A call of [update] that is not a reversal
    and returns has either committed the whole move (lines 74-79, then the
    old head's direction rewritten and the new head appended) and returned
    [True], or reported death with [False] and the state exactly as lines
    74-79 left it.  In particular, when the target cell holds an apple and
    is an obstacle or a body point, then once [new_apple] has returned the
    call returns [False] and the board differs from the one before only by
    what lines 75-77 do: the apple removed, one apple appended, the score
    one higher; snake, obstacles, width and height are the same.
    [new_apple] does return as soon as the random source offers it a free
    cell within the room the recursion limit leaves.  A call that raises
    has neither committed nor reported death, and it can leave a part of
    the move done: the apple removed with no apple appended and the score
    as it was, when [new_apple] raises ([RecursionError], or [ValueError]
    on a grid without cells); or the only segment popped and no head
    appended, with [IndexError].  Such a board is reached in a game:
    [coiled] arises from [init(20, 30)], and there the move UP dies with
    the score raised to 2. *)
Theorem update_commit_or_death :
  (∀ rnd fuel d sh w hd,
     last (body (snake (brd w))) = Some hd →
     opposite (direction hd) d = false →
     (∀ r w', update rnd fuel d sh w = Ok r w' →
        ∃ w1, eat_or_shrink rnd fuel (next_pos_of hd d) w = Ok tt w1
          ∧ (r = false ∧ death_cell (brd w) (next_pos_of hd d) ∧ w' = w1
             ∨ r = true ∧ ¬ death_cell (brd w) (next_pos_of hd d)
               ∧ w' = committed w1 d (next_pos_of hd d)
               ∧ last (body (snake (brd w')))
                 = Some (mkBodyPart (next_pos_of hd d) d)
               ∧ length (body (snake (brd w')))
                 = S (length (body (snake (brd w1))))))
     ∧ (next_pos_of hd d ∈ apples (brd w) →
        next_pos_of hd d ∈ obstacles (brd w)
        ∨ next_pos_of hd d ∈ body_points (snake (brd w)) →
        (∀ w1, eat_or_shrink rnd fuel (next_pos_of hd d) w = Ok tt w1 →
           update rnd fuel d sh w = Ok false w1
           ∧ snake (brd w1) = snake (brd w)
           ∧ obstacles (brd w1) = obstacles (brd w)
           ∧ width (brd w1) = width (brd w)
           ∧ height (brd w1) = height (brd w)
           ∧ score (brd w1) = score (brd w) + 1
           ∧ ∃ l1 l2 p,
               apples (brd w) = l1 ++ next_pos_of hd d :: l2
               ∧ (next_pos_of hd d ∉ l1)
               ∧ list_remove (next_pos_of hd d) (apples (brd w))
                 = Some (l1 ++ l2)
               ∧ apples (brd w1) = (l1 ++ l2) ++ [p])
        ∧ (∀ l n fuel',
             list_remove (next_pos_of hd d) (apples (brd w)) = Some l →
             proper_size (brd w) →
             occupied (set_apples l (brd w))
                      (candidate rnd (brd w) (drawn w + 2 * n)) = false →
             (n < fuel')%nat →
             ∃ w1, update rnd fuel' d sh w = Ok false w1
                   ∧ snake (brd w1) = snake (brd w)
                   ∧ score (brd w1) = score (brd w) + 1))
     ∧ (∀ e w', update rnd fuel d sh w = Raise e w' →
          (∃ l, list_remove (next_pos_of hd d) (apples (brd w)) = Some l
                ∧ brd w' = set_apples l (brd w)
                ∧ ((∃ msg, e = ValueError msg) ∧ ¬ proper_size (brd w)
                   ∨ e = RecursionError
                     ∧ drawn w' = (drawn w + 2 * fuel)%nat))
          ∨ ((next_pos_of hd d ∉ apples (brd w))
             ∧ body (snake (brd w)) = [hd]
             ∧ (next_pos_of hd d ∉ obstacles (brd w))
             ∧ e = IndexError "deque index out of range"
             ∧ w' = mkWorld (set_body [] (brd w)) (drawn w))))
  ∧ (updates unlucky 1 (to_the_apple ++ [RIGHT; DOWN; LEFT])
       (mkWorld start_board 0) = Ok true (mkWorld coiled 2)
     ∧ update unlucky 1 UP false (mkWorld coiled 2)
       = Ok false
           (mkWorld (set_score 2 (set_apples [mkPoint 5 5] coiled)) 4)).
Proof.
  split; [|split; vm_compute; reflexivity].
  intros rnd fuel d sh w hd Hl Hop. split; [|split].
  - intros r w' Hup.
    destruct (update_Ok_adjusted rnd fuel d sh w hd r w' Hl Hop Hup)
      as [w1 Hrun].
    exists w1. split; [exact Hrun|].
    destruct (update_after_adjust rnd fuel d sh w hd tt w1 Hl Hop Hrun)
      as [Hdead Halive].
    destruct (decide (death_cell (brd w) (next_pos_of hd d))) as [Hd|Hd].
    + rewrite (Hdead Hd) in Hup. injection Hup as <- <-. left. auto.
    + rewrite (Halive Hd) in Hup.
      destruct (last (body (snake (brd w1)))) as [h1|] eqn:Hl1; [|discriminate].
      injection Hup as <- <-. right.
      apply last_Some in Hl1 as [mid Hmid].
      destruct w1 as [b1 k1]. cbn [brd] in Hmid.
      rewrite (committed_snoc b1 k1 mid h1 d _ Hmid).
      cbn [brd set_body snake body]. rewrite Hmid.
      repeat split; auto.
      * replace (mid ++ [mkBodyPart (point h1) d; mkBodyPart (next_pos_of hd d) d])
          with ((mid ++ [mkBodyPart (point h1) d])
                ++ [mkBodyPart (next_pos_of hd d) d])
          by (rewrite <- app_assoc; reflexivity).
        apply last_snoc.
      * rewrite !length_app. cbn. lia.
  - intros Hin Hdie. split.
    + intros w1 Hrun.
      exact (update_apple_death rnd fuel d sh w hd w1 Hl Hop Hin Hdie Hrun).
    + intros l n fuel' Hrm Hp Hfree Hf.
      destruct (eat_or_shrink_returns rnd _ w l n fuel' Hrm Hp Hfree Hf)
        as [w1 Hrun].
      destruct (update_apple_death rnd fuel' d sh w hd w1 Hl Hop Hin Hdie Hrun)
        as (Hup & Hs & _ & _ & _ & Hsc & _).
      exists w1. auto.
  - intros e w' Hup.
    destruct (update_Raise_cases rnd fuel d sh w e w' Hup)
      as [(Hnil & _)|(hd' & Hl' & _ & Hcases)].
    + rewrite Hnil in Hl. discriminate.
    + rewrite Hl in Hl'. injection Hl' as <-. exact Hcases.
Qed.

Lemma update_commit_or_death_witness :
  last (body (snake coiled)) = Some (mkBodyPart (mkPoint 15 11) LEFT)
  ∧ opposite LEFT UP = false
  ∧ mkPoint 15 10 ∈ apples coiled
  ∧ mkPoint 15 10 ∈ body_points (snake coiled)
  ∧ update unlucky 1 UP false (mkWorld coiled 2)
    = Ok false (mkWorld (set_score 2 (set_apples [mkPoint 5 5] coiled)) 4).
Proof.
  split; [reflexivity|]. split; [reflexivity|].
  split; [decide_by_eval|]. split; [decide_by_eval|].
  apply (proj1 (proj1 (proj2 (proj1 update_commit_or_death unlucky 1%nat UP
                                false (mkWorld coiled 2)
                                (mkBodyPart (mkPoint 15 11) LEFT)
                                eq_refl eq_refl))
                  ltac:(decide_by_eval) ltac:(right; decide_by_eval))).
  vm_compute. reflexivity.
Defined.

(** C8 as worded fails.  The board [coiled] is reached in a game from
    [init(20, 30)]; its head at (15,11) moves UP onto (15,10), an apple and
    the snake's own tail.  When every candidate of [new_apple] is a wall,
    the call neither commits nor reports death: whatever room the recursion
    limit leaves, it ends with [RecursionError], with the apple removed,
    none appended and the score still 1.  And a snake of one segment that
    moves onto a free cell loses that segment and gets no head: the call
    ends with [IndexError] on an empty body. *)
Lemma update_partial_effect :
  updates hopeless 1 (to_the_apple ++ [RIGHT; DOWN; LEFT])
    (mkWorld start_board 0) = Ok true (mkWorld coiled 2)
  ∧ mkPoint 15 10 ∈ apples coiled
  ∧ mkPoint 15 10 ∈ body_points (snake coiled)
  ∧ (∀ fuel,
       update hopeless fuel UP false (mkWorld coiled 2)
       = Raise RecursionError (mkWorld (set_apples [] coiled) (2 + 2 * fuel)))
  ∧ score (set_apples [] coiled) = score coiled
  ∧ (∀ fuel,
       update (fun _ => 0) fuel RIGHT false
         (mkWorld (set_body [mkBodyPart (mkPoint 3 1) RIGHT] start_board) 0)
       = Raise (IndexError "deque index out of range")
           (mkWorld (set_body [] start_board) 0)).
Proof.
  split; [vm_compute; reflexivity|].
  split; [decide_by_eval|]. split; [decide_by_eval|].
  split; [|split; [reflexivity|]].
  - intros fuel.
    rewrite (update_moving hopeless fuel UP false (mkWorld coiled 2)
               (mkBodyPart (mkPoint 15 11) LEFT) eq_refl eq_refl).
    rewrite (eat_or_shrink_remove hopeless fuel
               (next_pos_of (mkBodyPart (mkPoint 15 11) LEFT) UP)
               (mkWorld coiled 2) [] eq_refl).
    cbn [brd drawn].
    rewrite (new_apple_rejected hopeless (set_apples [] coiled) fuel 2);
      [reflexivity | unfold proper_size; cbn; lia |].
    intros i _. reflexivity.
  - intros fuel.
    rewrite (update_moving (fun _ => 0) fuel RIGHT false
               (mkWorld (set_body [mkBodyPart (mkPoint 3 1) RIGHT] start_board) 0)
               (mkBodyPart (mkPoint 3 1) RIGHT) eq_refl eq_refl).
    rewrite (eat_or_shrink_shrink (fun _ => 0) fuel _ _
               (mkBodyPart (mkPoint 3 1) RIGHT) []);
      [vm_compute; reflexivity | decide_by_eval | reflexivity].
Qed.

(** ** Session set-up *)

(** membership in a list built by a loop that only appends *)
Lemma elem_of_foldl_append {A B} (F : list A → B → list A) (Q : B → A → Prop) :
  (∀ acc i p, p ∈ F acc i ↔ p ∈ acc ∨ Q i p) →
  ∀ l acc p, p ∈ foldl F acc l ↔ p ∈ acc ∨ ∃ i, i ∈ l ∧ Q i p.
Proof.
  intros HF l. induction l as [|i l IH]; intros acc p.
  - cbn. split; [auto|]. intros [H|(i & Hi & _)]; [exact H|].
    inversion Hi.
  - cbn [foldl]. rewrite IH, HF. split.
    + intros [[H|H]|(j & Hj & HQ)].
      * auto.
      * right. exists i. split; [apply elem_of_cons; auto | exact H].
      * right. exists j. split; [apply elem_of_cons; auto | exact HQ].
    + intros [H|(j & Hj & HQ)]; [auto|].
      apply elem_of_cons in Hj as [->|Hj]; [auto|].
      right. eauto.
Qed.

Lemma on_perimeter_spec h w i j :
  on_perimeter h w i j = true ↔ i = 0 ∨ i = h - 1 ∨ j = 0 ∨ j = w - 1.
Proof.
  unfold on_perimeter. rewrite !orb_true_iff, !bool_decide_eq_true. tauto.
Qed.

(** the obstacles that the two loops of [init] append *)
Lemma init_obstacles g h w p :
  p ∈ obstacles (board_of (init g h w)) ↔
  (0 ≤ x p ∧ x p < w ∧ 0 ≤ y p ∧ y p < h)
  ∧ (x p = 0 ∨ x p = w - 1 ∨ y p = 0 ∨ y p = h - 1).
Proof.
  unfold init, board_of. cbn [board obstacles width height].
  rewrite (elem_of_foldl_append _
             (fun i q => ∃ j, j ∈ seqZ 0 w
                              ∧ on_perimeter h w i j = true ∧ q = mkPoint j i)).
  - split.
    + intros [H|(i & Hi & j & Hj & Hper & ->)]; [inversion H|].
      apply elem_of_seqZ in Hi. apply elem_of_seqZ in Hj.
      apply on_perimeter_spec in Hper. cbn. lia.
    + intros [Hin Hper]. right. destruct p as [px py]. cbn in Hin, Hper.
      exists py. split; [apply elem_of_seqZ; lia|].
      exists px. split; [apply elem_of_seqZ; lia|].
      split; [apply on_perimeter_spec; lia | reflexivity].
  - intros acc i q.
    rewrite (elem_of_foldl_append _
               (fun j q => on_perimeter h w i j = true ∧ q = mkPoint j i)).
    + reflexivity.
    + intros acc' j q'. destruct (on_perimeter h w i j).
      * rewrite elem_of_app, list_elem_of_singleton. intuition congruence.
      * intuition congruence.
Qed.

(** C6. For positive height and width, [init] installs a board whose
    snake is the three segments (1,1), (2,1), (3,1) facing RIGHT, tail
    first, whose obstacles are exactly the cells of the grid with [x = 0],
    [x = width - 1], [y = 0] or [y = height - 1], whose only apple is
    [(width // 2, height // 2)] and whose score is 0.  Nothing of the game
    the call starts from enters the new board, so a replay starts from the
    same board with the score back at 0; the replay flag is untouched. *)
Theorem init_fresh_board g h w :
  0 < h → 0 < w →
  ∃ b,
    board (init g h w) = Some b
    ∧ body (snake b) = start_body
    ∧ (∀ p, p ∈ obstacles b ↔
            (0 ≤ x p ∧ x p < w ∧ 0 ≤ y p ∧ y p < h)
            ∧ (x p = 0 ∨ x p = w - 1 ∨ y p = 0 ∨ y p = h - 1))
    ∧ apples b = [mkPoint (w `div` 2) (h `div` 2)]
    ∧ score b = 0
    ∧ width b = w ∧ height b = h
    ∧ board (init g h w) = board (init new_game h w)
    ∧ replay (init g h w) = replay g.
Proof.
  intros _ _. exists (board_of (init g h w)).
  split; [reflexivity|]. split; [reflexivity|].
  split; [intros p; apply init_obstacles|].
  repeat split.
Qed.

Lemma init_fresh_board_witness :
  0 < 20 ∧ 0 < 30
  ∧ ∃ b,
      board (init played 20 30) = Some b
      ∧ body (snake b) = start_body
      ∧ (∀ p, p ∈ obstacles b ↔
              (0 ≤ x p ∧ x p < 30 ∧ 0 ≤ y p ∧ y p < 20)
              ∧ (x p = 0 ∨ x p = 30 - 1 ∨ y p = 0 ∨ y p = 20 - 1))
      ∧ apples b = [mkPoint (30 `div` 2) (20 `div` 2)]
      ∧ score b = 0
      ∧ width b = 30 ∧ height b = 20
      ∧ board (init played 20 30) = board (init new_game 20 30)
      ∧ replay (init played 20 30) = replay played.
Proof.
  split; [lia|]. split; [lia|].
  apply (init_fresh_board played 20 30); lia.
Defined.

(** ** Every returning [update] has one of five shapes *)

Lemma update_Ok_head rnd fuel d sh w r w' :
  update rnd fuel d sh w = Ok r w' →
  ∃ hd, last (body (snake (brd w))) = Some hd.
Proof.
  intros Hup. destruct (last (body (snake (brd w)))) as [hd|] eqn:Hl; [eauto|].
  unfold update in Hup. unfold bind at 1 in Hup.
  rewrite (body_last_None w Hl) in Hup. discriminate.
Qed.

Lemma update_Ok_shape rnd fuel d sh w hd r w' :
  last (body (snake (brd w))) = Some hd →
  update rnd fuel d sh w = Ok r w' →
  update_shape w hd d r w'.
Proof.
  intros Hl Hup.
  destruct (opposite (direction hd) d) eqn:Hop.
  { rewrite (update_reversal rnd fuel d sh w hd Hl Hop) in Hup.
    injection Hup as <- <-. constructor. exact Hop. }
  destruct (update_Ok_adjusted rnd fuel d sh w hd r w' Hl Hop Hup) as [w1 Hrun].
  destruct (update_after_adjust rnd fuel d sh w hd tt w1 Hl Hop Hrun)
    as [Hdead Halive].
  pose proof Hl as Hl0. apply last_Some in Hl0 as [mid0 Hmid0].
  destruct (decide (next_pos_of hd d ∈ apples (brd w))) as [Hin|Hnin].
  - destruct (eat_or_shrink_eat_Ok rnd fuel _ w tt w1 Hin Hrun)
      as (l1 & l2 & p & Hap & Hn1 & Hb1 & Hwb & Ho & Ha & Hs & Hdr).
    assert (Hdc : death_cell (brd w) (next_pos_of hd d) ↔
                  next_pos_of hd d ∈ obstacles (brd w)
                  ∨ next_pos_of hd d ∈ body_points (snake (brd w))).
    { unfold death_cell, adjusted_body.
      rewrite bool_decide_eq_true_2 by exact Hin.
      destruct (snake (brd w)). reflexivity. }
    destruct w1 as [b1 k1]. cbn [brd drawn] in Hb1, Hdr. subst b1.
    destruct (decide (death_cell (brd w) (next_pos_of hd d))) as [Hd|Hd].
    + rewrite (Hdead Hd) in Hup. injection Hup as <- <-.
      apply shape_eat_death; try assumption. apply Hdc. exact Hd.
    + rewrite (Halive Hd) in Hup. cbn [brd set_score set_apples snake body] in Hup.
      rewrite Hl in Hup. injection Hup as <- <-.
      rewrite (committed_snoc _ _ mid0 hd) by (cbn; exact Hmid0).
      rewrite Hdc in Hd.
      apply shape_eat_move; try assumption; tauto.
  - destruct (body (snake (brd w))) as [|t rest] eqn:Hb; [discriminate|].
    rewrite (eat_or_shrink_shrink rnd fuel _ w t rest Hnin Hb) in Hrun.
    injection Hrun as <-.
    assert (Hdc : death_cell (brd w) (next_pos_of hd d) ↔
                  next_pos_of hd d ∈ obstacles (brd w)
                  ∨ next_pos_of hd d ∈ body_points (mkSnake rest)).
    { unfold death_cell, adjusted_body.
      rewrite bool_decide_eq_false_2 by exact Hnin. rewrite Hb. reflexivity. }
    destruct (decide (death_cell (brd w) (next_pos_of hd d))) as [Hd|Hd].
    + rewrite (Hdead Hd) in Hup. injection Hup as <- <-.
      eapply shape_shrink_death; try eassumption. apply Hdc. exact Hd.
    + rewrite (Halive Hd) in Hup. cbn [brd set_body snake body] in Hup.
      destruct (last_cons_snoc t rest hd Hl) as [[-> ->]|[mid ->]];
        [discriminate|].
      rewrite last_snoc in Hup. injection Hup as <- <-.
      rewrite (committed_snoc _ _ mid hd) by reflexivity.
      rewrite Hdc in Hd.
      eapply (shape_move w hd d t mid); try assumption; tauto.
Qed.

Lemma update_Raise_board rnd fuel d sh w e w' :
  update rnd fuel d sh w = Raise e w' →
  width (brd w') = width (brd w)
  ∧ height (brd w') = height (brd w)
  ∧ obstacles (brd w') = obstacles (brd w)
  ∧ score (brd w') = score (brd w).
Proof.
  intros Hup.
  destruct (update_Raise_cases rnd fuel d sh w e w' Hup)
    as [(_ & _ & ->)
       |(hd & _ & _ & [(l & _ & Hb & _)|(_ & _ & _ & _ & ->)])].
  - auto.
  - rewrite Hb. auto.
  - auto.
Qed.

Lemma update_walls_lem rnd fuel d sh w :
  match update rnd fuel d sh w with
  | Ok _ w' | Raise _ w' =>
      width (brd w') = width (brd w)
      ∧ height (brd w') = height (brd w)
      ∧ obstacles (brd w') = obstacles (brd w)
  end.
Proof.
  destruct (update rnd fuel d sh w) as [r w'|e w'] eqn:Hup.
  - destruct (update_Ok_head rnd fuel d sh w r w' Hup) as [hd Hl].
    destruct (update_Ok_shape rnd fuel d sh w hd r w' Hl Hup); auto.
  - destruct (update_Raise_board rnd fuel d sh w e w' Hup) as (? & ? & ? & _).
    auto.
Qed.

(** X1. the walls stand.  Whatever [update] does (return or raise), the
    width, the height and the obstacles of the board are what they were. *)
Theorem update_keeps_walls rnd fuel d sh w :
  match update rnd fuel d sh w with
  | Ok _ w' | Raise _ w' =>
      width (brd w') = width (brd w)
      ∧ height (brd w') = height (brd w)
      ∧ obstacles (brd w') = obstacles (brd w)
  end.
Proof. exact (update_walls_lem rnd fuel d sh w). Qed.

Lemma NoDup_app_cons_remove {A} (l1 l2 : list A) (a : A) :
  NoDup (l1 ++ a :: l2) → NoDup (l1 ++ l2).
Proof.
  rewrite !NoDup_app, NoDup_cons. intros (H1 & H12 & _ & H2).
  split; [exact H1|]. split; [|exact H2].
  intros z Hz Hz2. apply (H12 z Hz). apply elem_of_cons. auto.
Qed.

Lemma update_apples_lem rnd fuel d sh w r w' :
  update rnd fuel d sh w = Ok r w' →
  length (apples (brd w')) = length (apples (brd w))
  ∧ (NoDup (apples (brd w)) → NoDup (apples (brd w')))
  ∧ ((∀ a, a ∈ apples (brd w) →
           within_borders (brd w) a = true ∧ a ∉ obstacles (brd w)) →
     (∀ a, a ∈ apples (brd w') →
           within_borders (brd w') a = true ∧ a ∉ obstacles (brd w'))).
Proof.
  intros Hup. destruct (update_Ok_head rnd fuel d sh w r w' Hup) as [hd Hl].
  assert (Heat : ∀ l1 l2 p,
            apples (brd w) = l1 ++ next_pos_of hd d :: l2 →
            within_borders (brd w) p = true →
            p ∉ obstacles (brd w) → p ∉ l1 ++ l2 →
            length (l1 ++ l2 ++ [p]) = length (apples (brd w))
            ∧ (NoDup (apples (brd w)) → NoDup (l1 ++ l2 ++ [p]))
            ∧ ((∀ a, a ∈ apples (brd w) →
                  within_borders (brd w) a = true ∧ a ∉ obstacles (brd w)) →
               (∀ a, a ∈ l1 ++ l2 ++ [p] →
                  within_borders (brd w) a = true ∧ a ∉ obstacles (brd w)))).
  { intros l1 l2 p Hap Hwb Ho Ha. rewrite Hap. split; [|split].
    - rewrite !length_app. cbn. lia.
    - intros Hnd. apply NoDup_app_cons_remove in Hnd.
      rewrite app_assoc. apply NoDup_app. split; [exact Hnd|].
      split; [|apply NoDup_singleton].
      intros z Hz Hz'. apply list_elem_of_singleton in Hz'. subst z. tauto.
    - intros Hall a Hina. rewrite app_assoc in Hina.
      apply elem_of_app in Hina as [Hina|Hina].
      + apply Hall. apply elem_of_app in Hina as [Hina|Hina].
        * apply elem_of_app. auto.
        * apply elem_of_app. right. apply elem_of_cons. auto.
      + apply list_elem_of_singleton in Hina. subst a. auto. }
  destruct (update_Ok_shape rnd fuel d sh w hd r w' Hl Hup);
    cbn [brd set_body set_score set_apples apples obstacles];
    try (split; [reflexivity|split; exact (fun Hkeep => Hkeep)]).
  - apply Heat; assumption.
  - apply Heat; assumption.
Qed.

(** X2. apples are conserved.  A call of [update] that returns leaves as
    many apples as it found; if they were pairwise distinct, in the grid and
    off the obstacles, they still are. *)
Theorem update_keeps_apples rnd fuel d sh w r w' :
  update rnd fuel d sh w = Ok r w' →
  length (apples (brd w')) = length (apples (brd w))
  ∧ (NoDup (apples (brd w)) → NoDup (apples (brd w')))
  ∧ ((∀ a, a ∈ apples (brd w) →
           within_borders (brd w) a = true ∧ a ∉ obstacles (brd w)) →
     (∀ a, a ∈ apples (brd w') →
           within_borders (brd w') a = true ∧ a ∉ obstacles (brd w'))).
Proof. exact (update_apples_lem rnd fuel d sh w r w'). Qed.

Lemma linked_tail t rest : linked (t :: rest) = true → linked rest = true.
Proof.
  cbn [linked]. destruct rest; [reflexivity|].
  intros H. apply andb_true_iff in H as [_ H]. exact H.
Qed.

Lemma linked_step mid h h' n :
  linked (mid ++ [h]) = true →
  point h' = point h →
  next_pos_of h' (direction h') = point n →
  linked (mid ++ [h'; n]) = true.
Proof.
  intros Hlk Hp Hn. induction mid as [|a mid IH].
  - cbn. rewrite bool_decide_eq_true_2 by exact Hn. reflexivity.
  - destruct mid as [|a2 mid].
    + cbn in Hlk |- *. apply andb_true_iff in Hlk as [Ha _].
      apply bool_decide_eq_true in Ha.
      rewrite bool_decide_eq_true_2 by congruence.
      rewrite bool_decide_eq_true_2 by exact Hn. reflexivity.
    + change (linked ((a :: a2 :: mid) ++ [h]))
        with (bool_decide (next_pos_of a (direction a) = point a2)
              && linked ((a2 :: mid) ++ [h])) in Hlk.
      change (linked ((a :: a2 :: mid) ++ [h'; n]))
        with (bool_decide (next_pos_of a (direction a) = point a2)
              && linked ((a2 :: mid) ++ [h'; n])).
      apply andb_true_iff in Hlk as [Ha Hrest].
      rewrite Ha, (IH Hrest). reflexivity.
Qed.

Lemma update_linked_lem rnd fuel d sh w r w' :
  linked (body (snake (brd w))) = true →
  update rnd fuel d sh w = Ok r w' →
  linked (body (snake (brd w'))) = true.
Proof.
  intros Hlk Hup. destruct (update_Ok_head rnd fuel d sh w r w' Hup) as [hd Hl].
  destruct (update_Ok_shape rnd fuel d sh w hd r w' Hl Hup)
    as [?|t rest ? ? Hb ?|t mid ? ? Hb ? ?| |l1 l2 p k' mid ? ? ? ? ? ? ? Hb ? ? ?];
    cbn [brd set_body set_score set_apples snake body].
  - exact Hlk.
  - rewrite Hb in Hlk. exact (linked_tail t rest Hlk).
  - rewrite Hb in Hlk. apply linked_tail in Hlk.
    apply (linked_step mid hd); [exact Hlk|reflexivity..].
  - exact Hlk.
  - rewrite Hb in Hlk. apply (linked_step mid hd); [exact Hlk|reflexivity..].
Qed.

(** X3. the direction store keeps the body linked.  If every segment but
    the head faces the cell of the segment after it, the same holds after
    any call of [update] that returns: this is what the store into the old
    head's direction is for. *)
Theorem update_keeps_linked rnd fuel d sh w r w' :
  linked (body (snake (brd w))) = true →
  update rnd fuel d sh w = Ok r w' →
  linked (body (snake (brd w'))) = true.
Proof. exact (update_linked_lem rnd fuel d sh w r w'). Qed.

Lemma body_points_step mid hd d np :
  body_points (mkSnake (mid ++ [mkBodyPart (point hd) d; mkBodyPart np d]))
  = body_points (mkSnake (mid ++ [hd])) ++ [np].
Proof.
  unfold body_points. cbn [body]. rewrite !fmap_app. cbn.
  rewrite <- app_assoc. reflexivity.
Qed.

Lemma update_self_avoiding_lem rnd fuel d sh w r w' :
  NoDup (body_points (snake (brd w))) →
  (∀ p, p ∈ body_points (snake (brd w)) → p ∉ obstacles (brd w)) →
  update rnd fuel d sh w = Ok r w' →
  NoDup (body_points (snake (brd w')))
  ∧ (∀ p, p ∈ body_points (snake (brd w')) → p ∉ obstacles (brd w')).
Proof.
  intros Hnd Hoff Hup.
  destruct (update_Ok_head rnd fuel d sh w r w' Hup) as [hd Hl].
  assert (Hsnake : ∀ l, body (snake (brd w)) = l →
            body_points (snake (brd w)) = body_points (mkSnake l)).
  { intros l <-. destruct (snake (brd w)). reflexivity. }
  assert (Hgrow : ∀ pts np,
            NoDup pts → (∀ p, p ∈ pts → p ∉ obstacles (brd w)) →
            np ∉ pts → np ∉ obstacles (brd w) →
            NoDup (pts ++ [np])
            ∧ (∀ p, p ∈ pts ++ [np] → p ∉ obstacles (brd w))).
  { intros pts np Hn Ho Hnp Hno. split.
    - apply NoDup_app. split; [exact Hn|]. split; [|apply NoDup_singleton].
      intros z Hz Hz'. apply list_elem_of_singleton in Hz'. subst z. tauto.
    - intros p Hp. apply elem_of_app in Hp as [Hp|Hp]; [auto|].
      apply list_elem_of_singleton in Hp. subst p. exact Hno. }
  destruct (update_Ok_shape rnd fuel d sh w hd r w' Hl Hup)
    as [?|t rest ? ? Hb ?|t mid ? ? Hb ? ?| |l1 l2 p k' mid ? ? ? ? ? ? ? Hb ? ? ?];
    cbn [brd set_body set_score set_apples snake obstacles].
  - auto.
  - rewrite (Hsnake _ Hb) in Hnd, Hoff. unfold body_points in *.
    cbn [body] in *. rewrite fmap_cons in Hnd, Hoff.
    apply NoDup_cons in Hnd as [_ Hnd]. split; [exact Hnd|].
    intros p Hp. apply Hoff. apply elem_of_cons. auto.
  - rewrite (Hsnake _ Hb) in Hnd, Hoff. rewrite body_points_step.
    unfold body_points in Hnd, Hoff. cbn [body] in Hnd, Hoff.
    rewrite fmap_cons in Hnd, Hoff. apply NoDup_cons in Hnd as [_ Hnd].
    apply Hgrow; try assumption.
    intros p Hp. apply Hoff. apply elem_of_cons. auto.
  - auto.
  - rewrite body_points_step. rewrite <- (Hsnake _ Hb).
    apply Hgrow; assumption.
Qed.

(** X4. the snake stays simple and off the walls.  If no two segments share
    a cell and no segment lies on an obstacle, the same holds after any call
    of [update] that returns, with [True] or with [False]. *)
Theorem update_keeps_self_avoiding rnd fuel d sh w r w' :
  NoDup (body_points (snake (brd w))) →
  (∀ p, p ∈ body_points (snake (brd w)) → p ∉ obstacles (brd w)) →
  update rnd fuel d sh w = Ok r w' →
  NoDup (body_points (snake (brd w')))
  ∧ (∀ p, p ∈ body_points (snake (brd w')) → p ∉ obstacles (brd w')).
Proof. exact (update_self_avoiding_lem rnd fuel d sh w r w'). Qed.

Lemma update_score_length_lem rnd fuel d sh w r w' :
  update rnd fuel d sh w = Ok r w' →
  score (brd w) ≤ score (brd w') ∧ score (brd w') ≤ score (brd w) + 1
  ∧ (r = true →
     (length (body (snake (brd w))) ≤ length (body (snake (brd w'))))%nat
     ∧ score (brd w') - Z.of_nat (length (body (snake (brd w'))))
       = score (brd w) - Z.of_nat (length (body (snake (brd w)))))
  ∧ (r = false →
     (length (body (snake (brd w'))) ≤ length (body (snake (brd w))))%nat).
Proof.
  intros Hup. destruct (update_Ok_head rnd fuel d sh w r w' Hup) as [hd Hl].
  destruct (update_Ok_shape rnd fuel d sh w hd r w' Hl Hup)
    as [?|t rest ? ? Hb ?|t mid ? ? Hb ? ?| |l1 l2 p k' mid ? ? ? ? ? ? ? Hb ? ? ?];
    cbn [brd set_body set_score set_apples snake body score];
    try rewrite Hb; cbn [length]; rewrite ?length_app; cbn [length];
    repeat split; try discriminate; intros; lia.
Qed.

(** X5. score and length.  A call of [update] that returns never lowers the
    score and raises it by at most one; when it returns [True] the snake is
    no shorter than before and the score has grown exactly as much as the
    snake; when it returns [False] the snake is no longer than before. *)
Theorem update_score_and_length rnd fuel d sh w r w' :
  update rnd fuel d sh w = Ok r w' →
  score (brd w) ≤ score (brd w') ∧ score (brd w') ≤ score (brd w) + 1
  ∧ (r = true →
     (length (body (snake (brd w))) ≤ length (body (snake (brd w'))))%nat
     ∧ score (brd w') - Z.of_nat (length (body (snake (brd w'))))
       = score (brd w) - Z.of_nat (length (body (snake (brd w)))))
  ∧ (r = false →
     (length (body (snake (brd w'))) ≤ length (body (snake (brd w))))%nat).
Proof. exact (update_score_length_lem rnd fuel d sh w r w'). Qed.

Lemma step_inside b hd d :
  walled b →
  0 < x (point hd) ∧ x (point hd) < width b - 1
  ∧ 0 < y (point hd) ∧ y (point hd) < height b - 1 →
  next_pos_of hd d ∉ obstacles b →
  0 < x (next_pos_of hd d) ∧ x (next_pos_of hd d) < width b - 1
  ∧ 0 < y (next_pos_of hd d) ∧ y (next_pos_of hd d) < height b - 1.
Proof.
  intros Hwall Hhd Hno.
  assert (Hin : within_borders b (next_pos_of hd d) = true).
  { apply within_borders_spec. unfold next_pos_of, point_add.
    destruct d; cbn; lia. }
  assert (Hrim : ¬ (x (next_pos_of hd d) = 0
                    ∨ x (next_pos_of hd d) = width b - 1
                    ∨ y (next_pos_of hd d) = 0
                    ∨ y (next_pos_of hd d) = height b - 1)).
  { intros Hr. apply Hno. apply Hwall; assumption. }
  apply within_borders_spec in Hin. lia.
Qed.

Lemma update_inside_lem rnd fuel d sh w r w' :
  walled (brd w) → inside (brd w) →
  update rnd fuel d sh w = Ok r w' →
  walled (brd w') ∧ inside (brd w').
Proof.
  intros Hwall Hins Hup.
  destruct (update_Ok_head rnd fuel d sh w r w' Hup) as [hd Hl].
  assert (Hhd : 0 < x (point hd) ∧ x (point hd) < width (brd w) - 1
                ∧ 0 < y (point hd) ∧ y (point hd) < height (brd w) - 1).
  { apply Hins. unfold body_points. apply list_elem_of_fmap. exists hd.
    split; [reflexivity|]. apply last_Some_elem_of. exact Hl. }
  assert (Hsnake : ∀ l, body (snake (brd w)) = l →
            body_points (snake (brd w)) = body_points (mkSnake l)).
  { intros l <-. destruct (snake (brd w)). reflexivity. }
  destruct (update_Ok_shape rnd fuel d sh w hd r w' Hl Hup)
    as [?|t rest ? ? Hb ?|t mid ? ? Hb Hno ?| |l1 l2 p k' mid ? ? ? ? ? ? ? Hb Hno ? ?];
    (split; [exact Hwall|]); unfold inside;
    cbn [brd set_body set_score set_apples snake width height].
  - exact Hins.
  - intros q Hq. apply Hins. rewrite (Hsnake _ Hb).
    unfold body_points in *. cbn [body] in *. rewrite fmap_cons.
    apply elem_of_cons. auto.
  - intros q Hq. rewrite body_points_step in Hq.
    apply elem_of_app in Hq as [Hq|Hq].
    + apply Hins. rewrite (Hsnake _ Hb).
      unfold body_points in *. cbn [body] in *. rewrite fmap_cons.
      apply elem_of_cons. auto.
    + apply list_elem_of_singleton in Hq. subst q.
      apply step_inside; assumption.
  - exact Hins.
  - intros q Hq. rewrite body_points_step in Hq.
    apply elem_of_app in Hq as [Hq|Hq].
    + apply Hins. rewrite (Hsnake _ Hb). exact Hq.
    + apply list_elem_of_singleton in Hq. subst q.
      apply step_inside; assumption.
Qed.

(** X6. the ring of walls keeps the snake in.  On a board whose rim cells
    are all obstacles, a snake whose segments lie strictly inside the rim
    still does after any call of [update] that returns: a step from inside
    reaches the rim at most, and the rim kills. *)
Theorem update_keeps_inside rnd fuel d sh w r w' :
  walled (brd w) → inside (brd w) →
  update rnd fuel d sh w = Ok r w' →
  walled (brd w') ∧ inside (brd w').
Proof. exact (update_inside_lem rnd fuel d sh w r w'). Qed.

(** ** Directions and unit vectors *)

(** X7. opposite directions are those whose unit vectors cancel.  The test
    [opposite] is symmetric, and it holds exactly when a step along the first
    direction followed by a step along the second leads back to the start. *)
Theorem opposite_iff_units_cancel d e :
  opposite d e = opposite e d
  ∧ (opposite d e = true ↔ point_add (units d) (units e) = mkPoint 0 0)
  ∧ (∀ p, opposite d e = true
          ↔ point_add (point_add p (units d)) (units e) = p).
Proof.
  split; [destruct d, e; reflexivity|]. split.
  - destruct d, e; cbn; split; intros H; try reflexivity; discriminate.
  - intros [px py].
    assert (Hgen : ∀ u v : Point,
              point_add (point_add (mkPoint px py) u) v = mkPoint px py
              ↔ point_add u v = mkPoint 0 0).
    { intros [ux uy] [vx vy]. unfold point_add. cbn [x y].
      split; intros H; injection H; intros; f_equal; lia. }
    rewrite Hgen.
    destruct d, e; cbn; split; intros H; try reflexivity; discriminate.
Qed.

(** ** [new_apple] on a board without cells *)

(** X8. an empty grid makes [new_apple] raise.  With a width of 0 or less
    the first [randint] raises [ValueError] on its empty range before
    anything is drawn; with a positive width and a height of 0 or less the
    second one raises after one draw.  The board is left as it was. *)
Theorem new_apple_empty_grid rnd fuel b k :
  (width b ≤ 0 →
   ∃ msg, new_apple rnd (S fuel) (mkWorld b k) = Raise (ValueError msg) (mkWorld b k))
  ∧ (0 < width b → height b ≤ 0 →
     ∃ msg, new_apple rnd (S fuel) (mkWorld b k)
            = Raise (ValueError msg) (mkWorld b (S k))).
Proof.
  split.
  - intros Hw. cbn [new_apple]. unfold bind at 1. cbn [get_board brd].
    unfold bind at 1.
    destruct (randint_empty rnd (width b) (mkWorld b k) Hw) as [msg ->]. eauto.
  - intros Hw Hh. cbn [new_apple]. unfold bind at 1. cbn [get_board brd].
    unfold bind at 1. rewrite (randint_range rnd _ _ Hw). cbn [brd drawn].
    unfold bind at 1.
    destruct (randint_empty rnd (height b) (mkWorld b (S k)) Hh) as [msg ->].
    eauto.
Qed.

Lemma new_apple_empty_grid_witness :
  width (mkBoard 0 5 [] (mkSnake []) [] 0) ≤ 0
  ∧ ∃ msg, new_apple (fun _ => 3) 1 (mkWorld (mkBoard 0 5 [] (mkSnake []) [] 0) 0)
           = Raise (ValueError msg) (mkWorld (mkBoard 0 5 [] (mkSnake []) [] 0) 0).
Proof.
  split; [cbn; lia|].
  apply (proj1 (new_apple_empty_grid (fun _ => 3) 0%nat
                  (mkBoard 0 5 [] (mkSnake []) [] 0) 0%nat)).
  cbn. lia.
Defined.

(** ** Small boards *)

Lemma point_eq_iff a b c e : mkPoint a b = mkPoint c e ↔ a = c ∧ b = e.
Proof. split; [intros H; injection H; auto | intros [-> ->]; reflexivity]. Qed.

(** X9. where [init] puts things on small boards.  The starting snake lies
    in the grid and off the walls exactly when the width is at least 5 and
    the height at least 3.  The centre apple lies in the grid, off the walls
    and off the snake exactly when width and height are at least 3 and, the
    height being 3, the width is at least 8: on a board of height 3 and
    width 3 to 7 the apple starts under the snake. *)
Theorem init_placement g h w :
  ((∀ p, p ∈ body_points (snake (board_of (init g h w))) →
         within_borders (board_of (init g h w)) p = true
         ∧ p ∉ obstacles (board_of (init g h w)))
   ↔ 5 ≤ w ∧ 3 ≤ h)
  ∧ ((∀ a, a ∈ apples (board_of (init g h w)) →
           within_borders (board_of (init g h w)) a = true
           ∧ (a ∉ obstacles (board_of (init g h w)))
           ∧ (a ∉ body_points (snake (board_of (init g h w)))))
     ↔ 3 ≤ w ∧ 3 ≤ h ∧ (4 ≤ h ∨ 8 ≤ w)).
Proof.
  assert (Hbody : body_points (snake (board_of (init g h w)))
                  = [mkPoint 1 1; mkPoint 2 1; mkPoint 3 1]) by reflexivity.
  assert (Hap : apples (board_of (init g h w))
                = [mkPoint (w `div` 2) (h `div` 2)]) by reflexivity.
  assert (Hcell : ∀ p,
            within_borders (board_of (init g h w)) p = true
            ∧ p ∉ obstacles (board_of (init g h w))
            ↔ 0 < x p ∧ x p < w - 1 ∧ 0 < y p ∧ y p < h - 1).
  { intros p. rewrite within_borders_spec, init_obstacles.
    change (width (board_of (init g h w))) with w.
    change (height (board_of (init g h w))) with h. lia. }
  rewrite Hbody, Hap. split.
  - split.
    + intros H.
      pose proof (proj1 (Hcell _) (H (mkPoint 3 1) ltac:(repeat constructor))) as H3.
      cbn in H3. lia.
    + intros Hwh p Hp. apply Hcell.
      rewrite !elem_of_cons in Hp.
      destruct Hp as [->|[->|[->|Hp]]]; [cbn; lia..|inversion Hp].
  - pose proof (Z.div_mod w 2 ltac:(lia)) as Hw.
    pose proof (Z.mod_pos_bound w 2 ltac:(lia)) as Hw'.
    pose proof (Z.div_mod h 2 ltac:(lia)) as Hh.
    pose proof (Z.mod_pos_bound h 2 ltac:(lia)) as Hh'.
    set (qw := w `div` 2) in *. set (qh := h `div` 2) in *.
    assert (Hsn : mkPoint qw qh ∉ [mkPoint 1 1; mkPoint 2 1; mkPoint 3 1]
                  ↔ ¬ (qh = 1 ∧ 1 ≤ qw ∧ qw ≤ 3)).
    { rewrite !not_elem_of_cons, !point_eq_iff. split.
      - intros (H1 & H2 & H3 & _) (Hq & Hlo & Hhi).
        assert (qw = 1 ∨ qw = 2 ∨ qw = 3) as [E|[E|E]] by lia; tauto.
      - intros Hn. repeat split; try apply not_elem_of_nil; lia. }
    split.
    + intros H.
      destruct (H (mkPoint qw qh) ltac:(repeat constructor)) as (Hwb & Ho & Hs).
      pose proof (proj1 (Hcell _) (conj Hwb Ho)) as Hc. cbn in Hc.
      apply Hsn in Hs. lia.
    + intros Hwh a Ha. apply list_elem_of_singleton in Ha. subst a.
      assert (Hc : 0 < qw ∧ qw < w - 1 ∧ 0 < qh ∧ qh < h - 1) by lia.
      apply (Hcell (mkPoint qw qh)) in Hc as [Hwb Ho].
      split; [exact Hwb|]. split; [exact Ho|]. apply Hsn. lia.
Qed.

(** ** The wall as a list *)

Lemma foldl_cond_append {A B} (c : B → bool) (f : B → A) (l : list B) :
  ∀ acc,
    foldl (fun acc j => if c j then acc ++ [f j] else acc) acc l
    = acc ++ (f <$> filter (fun j => c j = true) l).
Proof.
  induction l as [|j l IH]; intros acc; cbn [foldl].
  - rewrite filter_nil, fmap_nil, app_nil_r. reflexivity.
  - rewrite IH. destruct (c j) eqn:Hc.
    + rewrite filter_cons_True by exact Hc. rewrite fmap_cons, <- app_assoc.
      reflexivity.
    + rewrite filter_cons_False by (rewrite Hc; discriminate). reflexivity.
Qed.

Lemma foldl_append_bind {A B} (F : list A → B → list A) (g : B → list A) :
  (∀ acc i, F acc i = acc ++ g i) →
  ∀ l acc, foldl F acc l = acc ++ (l ≫= g).
Proof.
  intros HF l. induction l as [|i l IH]; intros acc; cbn [foldl].
  - cbn. rewrite app_nil_r. reflexivity.
  - rewrite IH, HF, bind_cons, <- app_assoc. reflexivity.
Qed.

(** the obstacles of [init], row by row *)
Lemma init_obstacles_rows g h w :
  obstacles (board_of (init g h w))
  = seqZ 0 h ≫= (fun i =>
      (fun j => mkPoint j i)
        <$> filter (fun j => on_perimeter h w i j = true) (seqZ 0 w)).
Proof.
  unfold init, board_of. cbn [board obstacles width height].
  rewrite (foldl_append_bind _
             (fun i => (fun j => mkPoint j i)
                         <$> filter (fun j => on_perimeter h w i j = true)
                                    (seqZ 0 w))).
  - reflexivity.
  - intros acc i.
    apply (foldl_cond_append (fun j => on_perimeter h w i j)
                             (fun j => mkPoint j i)).
Qed.

Lemma filter_all {A} (P : A → Prop) `{!∀ x, Decision (P x)} (l : list A) :
  (∀ a, a ∈ l → P a) → filter P l = l.
Proof.
  induction l as [|a l IH]; intros Hall; [reflexivity|].
  rewrite filter_cons_True by (apply Hall; constructor).
  rewrite IH; [reflexivity|]. intros b Hb. apply Hall. constructor. exact Hb.
Qed.

Lemma filter_none {A} (P : A → Prop) `{!∀ x, Decision (P x)} (l : list A) :
  (∀ a, a ∈ l → ¬ P a) → filter P l = [].
Proof.
  induction l as [|a l IH]; intros Hall; [reflexivity|].
  rewrite filter_cons_False by (apply Hall; constructor).
  apply IH. intros b Hb. apply Hall. constructor. exact Hb.
Qed.

Lemma seqZ_ends n : 2 ≤ n → seqZ 0 n = 0 :: seqZ 1 (n - 2) ++ [n - 1].
Proof.
  intros Hn. rewrite (seqZ_cons 0 n) by lia. f_equal.
  replace (Z.pred n) with ((n - 2) + 1) by lia.
  rewrite seqZ_app by lia. f_equal.
  replace (Z.succ 0 + (n - 2)) with (n - 1) by lia. reflexivity.
Qed.

Lemma length_bind_const {A B} (g : B → list A) (n : nat) (l : list B) :
  (∀ i, i ∈ l → length (g i) = n) → length (l ≫= g) = (n * length l)%nat.
Proof.
  induction l as [|i l IH]; intros H; [cbn; lia|].
  rewrite bind_cons, length_app, (H i) by constructor.
  rewrite IH by (intros j Hj; apply H; constructor; exact Hj).
  cbn [length]. lia.
Qed.

(** X10. the wall is a ring without repetition.  The obstacles that [init]
    appends are pairwise distinct, and for a width and a height of at least
    2 there are exactly [2 * width + 2 * height - 4] of them. *)
Theorem init_obstacles_ring g h w :
  NoDup (obstacles (board_of (init g h w)))
  ∧ (2 ≤ h → 2 ≤ w →
     Z.of_nat (length (obstacles (board_of (init g h w))))
     = 2 * w + 2 * h - 4).
Proof.
  rewrite init_obstacles_rows. split.
  - apply NoDup_bind.
    + intros i1 i2 p _ _ H1 H2.
      apply list_elem_of_fmap in H1 as (j1 & -> & _).
      apply list_elem_of_fmap in H2 as (j2 & E & _).
      injection E as _ E. exact E.
    + intros i _. apply NoDup_fmap_2_strong.
      * intros j1 j2 _ _ E. injection E as E. exact E.
      * apply NoDup_filter, NoDup_seqZ.
    + apply NoDup_seqZ.
  - intros Hh Hw.
    assert (Hfull : ∀ i, i = 0 ∨ i = h - 1 →
              filter (fun j => on_perimeter h w i j = true) (seqZ 0 w)
              = seqZ 0 w).
    { intros i Hi. apply filter_all. intros j _.
      apply on_perimeter_spec. lia. }
    assert (Hinner : ∀ i, i ∈ seqZ 1 (h - 2) →
              length ((fun j => mkPoint j i)
                        <$> filter (fun j => on_perimeter h w i j = true)
                                   (seqZ 0 w)) = 2%nat).
    { intros i Hi. apply elem_of_seqZ in Hi.
      rewrite (seqZ_ends w Hw), filter_cons_True
        by (apply on_perimeter_spec; lia).
      rewrite filter_app, filter_none.
      - rewrite filter_cons_True by (apply on_perimeter_spec; lia).
        reflexivity.
      - intros j Hj. apply elem_of_seqZ in Hj. rewrite on_perimeter_spec. lia. }
    rewrite (seqZ_ends h Hh), bind_cons, bind_app, bind_singleton.
    rewrite !length_app, (length_bind_const _ 2%nat _ Hinner).
    rewrite !length_fmap, (Hfull 0), (Hfull (h - 1)) by lia.
    rewrite !length_seqZ. lia.
Qed.

(** ** What [render] draws *)

Lemma choose_char_glyph char d : choose_char char d = Some (glyph d).
Proof. destruct d; reflexivity. Qed.

(** the calls of the loop over the body, in closed form *)
Lemma render_snake_calls b :
  ∃ char,
    render_snake b
    = Some ((fun part => AddStr (y (point part) + 1) (x (point part))
                                (glyph (direction part)))
              <$> filter (fun part => within_borders b (point part) = true)
                         (body (snake b)),
            char).
Proof.
  unfold render_snake.
  pose (F := fun (st : option (list CursesCall * option string)) part =>
           match st with
           | Some (acc, char) =>
               if within_borders b (point part) then
                 match choose_char char (direction part) with
                 | Some c =>
                     Some (acc ++ [AddStr (y (point part) + 1) (x (point part)) c],
                           Some c)
                 | None => None
                 end
               else Some (acc, char)
           | None => None
           end).
  assert (Hgen : ∀ l acc char,
            ∃ char', foldl F (Some (acc, char)) l
                     = Some (acc ++ ((fun part => AddStr (y (point part) + 1)
                                                  (x (point part))
                                                  (glyph (direction part)))
                                       <$> filter (fun part =>
                                             within_borders b (point part) = true) l),
                             char')).
  { induction l as [|part l IH]; intros acc char; cbn [foldl].
    - exists char. rewrite filter_nil, fmap_nil, app_nil_r. reflexivity.
    - unfold F at 2. destruct (within_borders b (point part)) eqn:Hw.
      + rewrite choose_char_glyph.
        destruct (IH (acc ++ [AddStr (y (point part) + 1) (x (point part))
                                     (glyph (direction part))])
                     (Some (glyph (direction part)))) as [char' ->].
        exists char'. rewrite filter_cons_True by exact Hw.
        rewrite fmap_cons, <- app_assoc. reflexivity.
      + destruct (IH acc char) as [char' ->]. exists char'.
        rewrite filter_cons_False by (rewrite Hw; discriminate). reflexivity. }
  destruct (Hgen (body (snake b)) [] None) as [char' H]. exists char'.
  exact H.
Qed.

Lemma render_grid_elem b c :
  c ∈ render_grid b ↔
  ∃ cx cy, 0 ≤ cx ∧ cx < width b ∧ 0 ≤ cy ∧ cy < height b
           ∧ c = AddStr (cy + 1) cx ".".
Proof.
  unfold render_grid.
  rewrite (elem_of_foldl_append _
             (fun cy c => ∃ cx, cx ∈ seqZ 0 (width b)
                                ∧ c = AddStr (cy + 1) cx ".")).
  - split.
    + intros [H|(cy & Hy & cx & Hx & ->)]; [inversion H|].
      apply elem_of_seqZ in Hy. apply elem_of_seqZ in Hx.
      exists cx, cy. repeat split; lia.
    + intros (cx & cy & ? & ? & ? & ? & ->). right.
      exists cy. split; [apply elem_of_seqZ; lia|].
      exists cx. split; [apply elem_of_seqZ; lia|reflexivity].
  - intros acc cy c'.
    rewrite (elem_of_foldl_append _ (fun cx c => c = AddStr (cy + 1) cx ".")).
    + split; intros [H|(cx & Hx & E)]; auto; right; exists cx; auto.
    + intros acc' cx c''. rewrite elem_of_app, list_elem_of_singleton.
      reflexivity.
Qed.

Lemma render_layer_elem b (l : list Point) (s : string) c :
  c ∈ foldl (fun acc q =>
               if within_borders b q
               then acc ++ [AddStr (y q + 1) (x q) s] else acc) [] l
  ↔ ∃ q, q ∈ l ∧ within_borders b q = true ∧ c = AddStr (y q + 1) (x q) s.
Proof.
  rewrite (elem_of_foldl_append _
             (fun q c => within_borders b q = true
                         ∧ c = AddStr (y q + 1) (x q) s)).
  - split; [intros [H|H]; [inversion H|exact H] | auto].
  - intros acc q c'. destruct (within_borders b q).
    + rewrite elem_of_app, list_elem_of_singleton. intuition congruence.
    + intuition congruence.
Qed.

Lemma write_layer row col (s0 : string) (l : list CursesCall) :
  (∀ c, c ∈ l → ∃ r c', c = AddStr r c' s0) →
  ∀ cur,
    foldl (write_step row col) cur l
    = if bool_decide (AddStr row col s0 ∈ l) then Some s0 else cur.
Proof.
  induction l as [|a l IH]; intros Hall cur; cbn [foldl].
  - rewrite bool_decide_eq_false_2 by apply not_elem_of_nil. reflexivity.
  - destruct (Hall a ltac:(constructor)) as (r & c' & ->).
    rewrite IH by (intros c Hc; apply Hall; constructor; exact Hc).
    cbn [write_step].
    destruct (decide (AddStr row col s0 ∈ l)) as [Hin|Hnin].
    + rewrite !bool_decide_eq_true_2; [reflexivity| |exact Hin].
      constructor. exact Hin.
    + rewrite (bool_decide_eq_false_2 _ Hnin).
      destruct (decide (r = row ∧ c' = col)) as [[-> ->]|Hne].
      * rewrite !bool_decide_eq_true_2; [reflexivity|constructor|auto].
      * rewrite !bool_decide_eq_false_2; [reflexivity| |exact Hne].
        rewrite not_elem_of_cons. split; [|exact Hnin].
        intros E. injection E as -> ->. tauto.
Qed.

Lemma write_snake p (l : list BodyPart) :
  ∀ cur,
    foldl (write_step (y p + 1) (x p)) cur
          ((fun part => AddStr (y (point part) + 1) (x (point part))
                               (glyph (direction part))) <$> l)
    = match last (filter (fun part => point part = p) l) with
      | Some part => Some (glyph (direction part))
      | None => cur
      end.
Proof.
  induction l as [|a l IH]; intros cur; [reflexivity|].
  rewrite fmap_cons. cbn [foldl]. rewrite IH. cbn [write_step].
  destruct (decide (point a = p)) as [E|Hne].
  - rewrite filter_cons_True by exact E.
    rewrite bool_decide_eq_true_2 by (rewrite E; auto).
    rewrite last_cons. destruct (last (filter _ l)); reflexivity.
  - rewrite filter_cons_False by exact Hne.
    rewrite bool_decide_eq_false_2; [reflexivity|].
    intros [Ey Ex]. apply Hne. destruct (point a), p. cbn in *.
    f_equal; lia.
Qed.

(** X11. [render] paints the layers in order.  [render] never fails, and on
    every cell of the grid the last string it writes since its [clear] is
    the glyph of the snake segment nearest to the head on that cell if there
    is one, else [@] for an apple, else [#] for an obstacle, else a dot. *)
Theorem render_cell b p :
  within_borders b p = true →
  ∃ cs, render b = Some cs
        ∧ last_write cs (y p + 1) (x p) = Some (cell_glyph b p).
Proof.
  intros Hin. pose proof Hin as Hin'. apply within_borders_spec in Hin'.
  unfold render. destruct (render_snake_calls b) as [char ->].
  eexists. split; [reflexivity|].
  unfold last_write. cbn [app foldl write_step].
  rewrite bool_decide_eq_false_2 by lia.
  rewrite !foldl_app. cbn [foldl write_step].
  rewrite (write_layer _ _ "." (render_grid b)).
  2:{ intros c Hc. apply render_grid_elem in Hc as (cx & cy & _ & _ & _ & _ & ->).
      eauto. }
  rewrite bool_decide_eq_true_2.
  2:{ apply render_grid_elem. exists (x p), (y p). repeat split; lia. }
  assert (Hlayer : ∀ (l : list Point) s,
            AddStr (y p + 1) (x p) s
            ∈ foldl (fun acc q =>
                       if within_borders b q
                       then acc ++ [AddStr (y q + 1) (x q) s] else acc) [] l
            ↔ p ∈ l).
  { intros l s. rewrite render_layer_elem. split.
    - intros (q & Hq & _ & E). injection E as Ey Ex.
      replace p with q; [exact Hq|]. destruct p, q. cbn in *. f_equal; lia.
    - intros Hp. exists p. auto. }
  rewrite (write_layer _ _ "#" (render_obstacles b)).
  2:{ intros c Hc. unfold render_obstacles in Hc.
      apply render_layer_elem in Hc as (q & _ & _ & ->). eauto. }
  rewrite (write_layer _ _ "@" (render_apples b)).
  2:{ intros c Hc. unfold render_apples in Hc.
      apply render_layer_elem in Hc as (q & _ & _ & ->). eauto. }
  rewrite write_snake, list_filter_filter.
  rewrite (list_filter_iff _ (fun part => point part = p)).
  2:{ intros part. split; [tauto|]. intros E. split; [exact E|].
      rewrite E. exact Hin. }
  unfold cell_glyph. destruct (last (filter _ (body (snake b)))); [reflexivity|].
  unfold render_apples, render_obstacles.
  rewrite (bool_decide_ext _ _ (Hlayer (apples b) "@")).
  rewrite (bool_decide_ext _ _ (Hlayer (obstacles b) "#")).
  destruct (bool_decide (p ∈ apples b)); [reflexivity|].
  destruct (bool_decide (p ∈ obstacles b)); reflexivity.
Qed.

(** X12. [render] stays inside the grid.  [render] never fails; it clears
    the screen, writes the score in decimal at row 0, column 0, then only
    single characters at rows [1..height] and columns [0..width-1], and
    ends with [refresh]: obstacles, apples and segments outside the grid
    are skipped. *)
Theorem render_stays_in_grid b :
  ∃ drawn_cells,
    render b = Some ([Clear; AddStr 0 0 (pretty (score b))]
                     ++ drawn_cells ++ [Refresh])
    ∧ Forall (fun c => ∃ r col s,
                c = AddStr r col s
                ∧ 1 ≤ r ∧ r ≤ height b ∧ 0 ≤ col ∧ col < width b
                ∧ String.length s = 1%nat)
             drawn_cells.
Proof.
  unfold render. destruct (render_snake_calls b) as [char ->].
  exists (render_grid b ++ render_obstacles b ++ render_apples b
          ++ ((fun part => AddStr (y (point part) + 1) (x (point part))
                                  (glyph (direction part)))
                <$> filter (fun part => within_borders b (point part) = true)
                           (body (snake b)))).
  split.
  - rewrite <- !app_assoc. reflexivity.
  - rewrite !Forall_app. repeat split.
    + apply Forall_forall. intros c Hc.
      apply render_grid_elem in Hc as (cx & cy & ? & ? & ? & ? & ->).
      exists (cy + 1), cx, ".". repeat split; try lia.
    + apply Forall_forall. intros c Hc. unfold render_obstacles in Hc.
      apply render_layer_elem in Hc as (q & _ & Hq & ->).
      apply within_borders_spec in Hq.
      exists (y q + 1), (x q), "#". repeat split; try lia.
    + apply Forall_forall. intros c Hc. unfold render_apples in Hc.
      apply render_layer_elem in Hc as (q & _ & Hq & ->).
      apply within_borders_spec in Hq.
      exists (y q + 1), (x q), "@". repeat split; try lia.
    + apply Forall_forall. intros c Hc.
      apply list_elem_of_fmap in Hc as (part & -> & Hpart).
      apply list_elem_of_filter in Hpart as [Hq _].
      apply within_borders_spec in Hq.
      exists (y (point part) + 1), (x (point part)), (glyph (direction part)).
      repeat split; try lia. destruct (direction part); reflexivity.
Qed.

(** [render] never fails and never shuts the screen down *)
Lemma render_total b : ∃ cs, render b = Some cs ∧ Endwin ∉ cs.
Proof.
  destruct (render_stays_in_grid b) as (cells & -> & Hall).
  eexists. split; [reflexivity|].
  rewrite Forall_forall in Hall.
  cbn [app]. rewrite !not_elem_of_cons, not_elem_of_app, not_elem_of_cons.
  repeat split; try discriminate; try apply not_elem_of_nil.
  intros Hin. destruct (Hall _ Hin) as (? & ? & ? & ? & _). discriminate.
Qed.

(** ** The lost scene *)

Lemma lost_scene_frame keys depth gw b :
  board (game gw) = Some b →
  lost_scene keys (S depth) gw =
    let c := keys (keys_read gw) in
    let gw1 := after_key gw [lost_prompt b] in
    if (c <? 0) || (1114111 <? c) then GRaise ChrValueError gw1
    else if bool_decide (c = ord "q") then
      GOk tt (mkGWorld (mkGame false (Some b)) (gdrawn gw)
                       (S (keys_read gw)) (calls gw ++ [lost_prompt b]))
    else if bool_decide (c = ord "r") then
      GOk tt (mkGWorld (mkGame true (Some b)) (gdrawn gw)
                       (S (keys_read gw)) (calls gw ++ [lost_prompt b]))
    else lost_scene keys depth gw1.
Proof.
  intros Hb. cbn [lost_scene]. unfold gbind at 1. unfold self_board.
  rewrite Hb. unfold gbind at 1. cbn [call]. unfold gbind at 1. cbn [getch].
  cbn [game gdrawn keys_read calls]. unfold gbind at 1. unfold chr.
  cbv zeta. fold (lost_prompt b). unfold after_key.
  destruct ((keys (keys_read gw) <? 0) || (1114111 <? keys (keys_read gw)));
    [reflexivity|].
  cbn [gret].
  destruct (bool_decide (keys (keys_read gw) = ord "q"));
    [unfold set_replay; cbn [game board gdrawn keys_read calls];
     rewrite Hb; reflexivity|].
  destruct (bool_decide (keys (keys_read gw) = ord "r"));
    [unfold set_replay; cbn [game board gdrawn keys_read calls];
     rewrite Hb; reflexivity|].
  reflexivity.
Qed.






(** ** One turn of the loop *)

Lemma do_render_Ok gw b cs :
  board (game gw) = Some b → render b = Some cs →
  do_render gw
  = GOk tt (mkGWorld (game gw) (gdrawn gw) (keys_read gw) (calls gw ++ cs)).
Proof.
  intros Hb Hr. unfold do_render, gbind, self_board. rewrite Hb, Hr.
  reflexivity.
Qed.

(** the dispatch of [Game.loop] on the character [ch] *)
Lemma loop_frame rnd keys fuel depth gw b cs :
  board (game gw) = Some b → render b = Some cs →
  loop rnd keys fuel depth gw =
    let ch := keys (keys_read gw) in
    let gw1 := after_key gw cs in
    if (ch <? 0) || (1114111 <? ch) then GRaise ChrValueError gw1
    else if bool_decide (ch = ord "a") || bool_decide (ch = ord "h") then
      move rnd keys fuel depth LEFT gw1
    else if bool_decide (ch = ord "s") || bool_decide (ch = ord "j") then
      move rnd keys fuel depth DOWN gw1
    else if bool_decide (ch = ord "w") || bool_decide (ch = ord "k") then
      move rnd keys fuel depth UP gw1
    else if bool_decide (ch = ord "d") || bool_decide (ch = ord "l") then
      move rnd keys fuel depth RIGHT gw1
    else if bool_decide (ch = ord "q") then
      GOk false (mkGWorld (mkGame false (board (game gw)))
                          (gdrawn gw) (S (keys_read gw)) (calls gw ++ cs))
    else GOk true gw1.
Proof.
  intros Hb Hr. unfold loop. unfold gbind at 1.
  rewrite (do_render_Ok gw b cs Hb Hr). unfold gbind at 1. cbn [getch].
  cbn [game gdrawn keys_read calls]. unfold gbind at 1. unfold chr.
  cbv zeta. unfold after_key.
  destruct ((keys (keys_read gw) <? 0) || (1114111 <? keys (keys_read gw)));
    [reflexivity|].
  cbn [gret].
  repeat (match goal with
          | |- context [if ?c then _ else _] =>
              destruct c; [reflexivity|]
          end).
  reflexivity.
Qed.

(** X14. keys that do not move the snake.  One turn of [Game.loop] draws the
    board and reads one key.  A key code that [chr] rejects (below 0, as the
    -1 of a failed [getch], or above 0x10FFFF) raises [ValueError] after the
    drawing.  The key [q] clears the replay flag and ends the loop.  Any
    other character that is not one of [a h s j w k d l], capitals included,
    is ignored: the loop goes on and the game is untouched. *)
Theorem loop_idle_keys rnd keys fuel depth gw b :
  board (game gw) = Some b →
  ∃ cs,
    render b = Some cs
    ∧ (¬ is_char (keys (keys_read gw)) →
       loop rnd keys fuel depth gw = GRaise ChrValueError (after_key gw cs))
    ∧ (keys (keys_read gw) = ord "q" →
       loop rnd keys fuel depth gw
       = GOk false (mkGWorld (mkGame false (Some b)) (gdrawn gw)
                             (S (keys_read gw)) (calls gw ++ cs)))
    ∧ (is_char (keys (keys_read gw)) →
       keys (keys_read gw) ∉ bound_keys →
       loop rnd keys fuel depth gw = GOk true (after_key gw cs)).
Proof.
  intros Hb. destruct (render_total b) as (cs & Hr & _).
  exists cs. split; [exact Hr|].
  rewrite (loop_frame rnd keys fuel depth gw b cs Hb Hr). cbv zeta.
  split; [|split].
  - unfold is_char. intros Hbad.
    destruct (Z.ltb_spec (keys (keys_read gw)) 0); [reflexivity|].
    destruct (Z.ltb_spec 1114111 (keys (keys_read gw))); [reflexivity|].
    lia.
  - intros ->. rewrite Hb. reflexivity.
  - intros [Hlo Hhi] Hnot.
    destruct (Z.ltb_spec (keys (keys_read gw)) 0); [lia|].
    destruct (Z.ltb_spec 1114111 (keys (keys_read gw))); [lia|].
    cbn [orb]. unfold bound_keys in Hnot.
    rewrite !not_elem_of_cons in Hnot.
    destruct Hnot as (? & ? & ? & ? & ? & ? & ? & ? & ? & _).
    rewrite !bool_decide_eq_false_2 by assumption. reflexivity.
Qed.

Lemma loop_idle_keys_witness :
  board (game (mkGWorld (init new_game 20 30) 0 0 [])) = Some start_board
  ∧ is_char (ord "A") ∧ (ord "A" ∉ bound_keys)
  ∧ ∃ cs,
      render start_board = Some cs
      ∧ loop (fun _ => 0) (fun _ => ord "A") 1 1
             (mkGWorld (init new_game 20 30) 0 0 [])
        = GOk true (after_key (mkGWorld (init new_game 20 30) 0 0 []) cs).
Proof.
  split; [reflexivity|].
  split; [unfold is_char; change (ord "A") with 65; lia|].
  split; [apply (bool_decide_eq_false_1 (ord "A" ∈ bound_keys)); reflexivity|].
  destruct (loop_idle_keys (fun _ => 0) (fun _ => ord "A") 1%nat 1%nat
              (mkGWorld (init new_game 20 30) 0 0 []) start_board eq_refl)
    as (cs & Hr & _ & _ & Hidle).
  exists cs. split; [exact Hr|]. apply Hidle.
  - unfold is_char. change (ord "A") with 65. lia.
  - apply (bool_decide_eq_false_1 (ord "A" ∈ bound_keys)). reflexivity.
Defined.

(** ** Invariants of a game *)

(** On a live board the one exception of [update] is the
    [RecursionError] of [new_apple], and it leaves a live board: only the
    eaten apple is gone. *)
Lemma update_raise_alive rnd fuel d sh w e w' :
  alive_ok (brd w) →
  update rnd fuel d sh w = Raise e w' →
  e = RecursionError ∧ alive_ok (brd w').
Proof.
  intros ((Hp & Hlk & Hnd & Hoff & Hna & Hap & Hwall & Hins) & Hlen & Hsc) Hup.
  destruct (update_Raise_cases rnd fuel d sh w e w' Hup)
    as [(Hnil & _)|(hd & Hl & _ & [(l & Hrm & Hb & He)|(_ & Hone & _)])].
  - rewrite Hnil in Hlen. cbn in Hlen. lia.
  - destruct He as [[_ Hn]|[-> _]]; [contradiction|].
    split; [reflexivity|]. rewrite Hb.
    assert (Hin : next_pos_of hd d ∈ apples (brd w)).
    { destruct (decide (next_pos_of hd d ∈ apples (brd w))) as [H|H];
        [exact H|].
      rewrite (list_remove_None _ _ H) in Hrm. discriminate. }
    destruct (list_remove_Some _ _ Hin) as (l1 & l2 & Hap0 & _ & Hrm').
    rewrite Hrm in Hrm'. injection Hrm' as ->.
    assert (Hnd' : NoDup (l1 ++ l2)).
    { apply (NoDup_app_cons_remove l1 l2 (next_pos_of hd d)).
      rewrite <- Hap0. exact Hna. }
    assert (Hsub : ∀ a, a ∈ l1 ++ l2 → a ∈ apples (brd w)).
    { intros a Ha. rewrite Hap0. apply elem_of_app in Ha.
      rewrite elem_of_app, elem_of_cons. tauto. }
    exact (conj
             (conj Hp (conj Hlk (conj Hnd (conj Hoff (conj Hnd'
               (conj (fun a Ha => Hap a (Hsub a Ha)) (conj Hwall Hins)))))))
             (conj Hlen Hsc)).
  - rewrite Hone in Hlen. cbn in Hlen. lia.
Qed.

Lemma update_board_safe rnd fuel d sh w r w' :
  board_safe (brd w) →
  update rnd fuel d sh w = Ok r w' →
  board_safe (brd w').
Proof.
  intros (Hp & Hlk & Hnd & Hoff & Hna & Hap & Hwall & Hins) Hup.
  destruct (update_inside_lem rnd fuel d sh w r w' Hwall Hins Hup)
    as [Hwall' Hins'].
  pose proof (update_walls_lem rnd fuel d sh w) as Hw. rewrite Hup in Hw.
  destruct Hw as (Hwd & Hht & Hobs).
  destruct (update_apples_lem rnd fuel d sh w r w' Hup) as (_ & Hna' & Hap').
  destruct (update_self_avoiding_lem rnd fuel d sh w r w' Hnd Hoff Hup)
    as [Hnd' Hoff'].
  assert (Hp' : proper_size (brd w'))
    by (unfold proper_size in *; rewrite Hwd, Hht; exact Hp).
  exact (conj Hp'
          (conj (update_linked_lem rnd fuel d sh w r w' Hlk Hup)
            (conj Hnd' (conj Hoff' (conj (Hna' Hna) (conj (Hap' Hap)
              (conj Hwall' Hins'))))))).
Qed.

Lemma update_alive_ok rnd fuel d sh w w' :
  alive_ok (brd w) →
  update rnd fuel d sh w = Ok true w' →
  alive_ok (brd w').
Proof.
  intros (Hs & Hlen & Hsc) Hup. split.
  - exact (update_board_safe rnd fuel d sh w true w' Hs Hup).
  - destruct (update_score_length_lem rnd fuel d sh w true w' Hup)
      as (_ & _ & Ht & _).
    destruct (Ht eq_refl) as [Hle Heq]. split; lia.
Qed.

(** the board that [init] builds satisfies the invariants of a live game
    when the starting snake fits between the walls *)
Lemma init_alive_ok_lem g h w :
  5 ≤ w → 3 ≤ h → alive_ok (board_of (init g h w)).
Proof.
  intros Hw Hh.
  assert (Hwd : width (board_of (init g h w)) = w) by reflexivity.
  assert (Hht : height (board_of (init g h w)) = h) by reflexivity.
  assert (Hcell : ∀ p,
            within_borders (board_of (init g h w)) p = true
            ∧ p ∉ obstacles (board_of (init g h w))
            ↔ 0 < x p ∧ x p < w - 1 ∧ 0 < y p ∧ y p < h - 1).
  { intros p. rewrite within_borders_spec, init_obstacles, Hwd, Hht. lia. }
  assert (Hbody : body_points (snake (board_of (init g h w)))
                  = [mkPoint 1 1; mkPoint 2 1; mkPoint 3 1]) by reflexivity.
  assert (Hap : apples (board_of (init g h w))
                = [mkPoint (w `div` 2) (h `div` 2)]) by reflexivity.
  assert (Hsn : ∀ p, p ∈ [mkPoint 1 1; mkPoint 2 1; mkPoint 3 1] →
                     0 < x p ∧ x p < w - 1 ∧ 0 < y p ∧ y p < h - 1).
  { intros p Hp. rewrite !elem_of_cons in Hp.
    destruct Hp as [->|[->|[->|Hp]]]; [cbn; lia..|inversion Hp]. }
  assert (Happle : within_borders (board_of (init g h w))
                     (mkPoint (w `div` 2) (h `div` 2)) = true
                   ∧ mkPoint (w `div` 2) (h `div` 2)
                     ∉ obstacles (board_of (init g h w))).
  { apply (Hcell (mkPoint _ _)). cbn [x y].
    pose proof (Z.div_mod w 2 ltac:(lia)).
    pose proof (Z.mod_pos_bound w 2 ltac:(lia)).
    pose proof (Z.div_mod h 2 ltac:(lia)).
    pose proof (Z.mod_pos_bound h 2 ltac:(lia)). lia. }
  split; [|split; reflexivity].
  unfold board_safe. rewrite Hbody, Hap.
  split; [unfold proper_size; rewrite Hwd, Hht; lia|].
  split; [reflexivity|].
  split.
  { repeat constructor; rewrite ?not_elem_of_cons; repeat split;
      try apply not_elem_of_nil; discriminate. }
  split; [intros p Hp; apply (Hcell p), Hsn, Hp|].
  split; [apply NoDup_singleton|].
  split.
  { intros a Ha. apply list_elem_of_singleton in Ha. subst a. exact Happle. }
  split.
  - intros p Hin Hrim. apply init_obstacles.
    apply within_borders_spec in Hin. rewrite Hwd, Hht in Hin, Hrim. lia.
  - unfold inside. rewrite Hbody, Hwd, Hht. exact Hsn.
Qed.

(** ** Outcomes of the controller's methods *)

Lemma screen_kept_refl gw : screen_kept gw gw.
Proof. exists []. rewrite app_nil_r. split; [reflexivity|apply not_elem_of_nil]. Qed.

Lemma screen_kept_trans gw1 gw2 gw3 :
  screen_kept gw1 gw2 → screen_kept gw2 gw3 → screen_kept gw1 gw3.
Proof.
  intros (e1 & H1 & N1) (e2 & H2 & N2). exists (e1 ++ e2).
  rewrite H2, H1, <- app_assoc. split; [reflexivity|].
  rewrite not_elem_of_app. tauto.
Qed.

Lemma screen_kept_calls gw gw' cs :
  calls gw' = calls gw ++ cs → Endwin ∉ cs → screen_kept gw gw'.
Proof. intros H N. exists cs. auto. Qed.

Lemma lost_scene_outcome keys depth : ∀ gw b,
  board (game gw) = Some b →
  match lost_scene keys depth gw with
  | GOk _ gw' =>
      board (game gw') = Some b ∧ gdrawn gw' = gdrawn gw ∧ screen_kept gw gw'
  | GRaise e gw' =>
      (e = ChrValueError ∨ e = SceneRecursionError)
      ∧ game gw' = game gw ∧ screen_kept gw gw'
  | GRunning _ => False
  end.
Proof.
  induction depth as [|depth IH]; intros gw b Hb.
  { cbn. split; [right; reflexivity|].
    split; [reflexivity|apply screen_kept_refl]. }
  assert (Hk : screen_kept gw (after_key gw [lost_prompt b])).
  { apply (screen_kept_calls _ _ [lost_prompt b]); [reflexivity|].
    rewrite not_elem_of_cons. split; [discriminate|apply not_elem_of_nil]. }
  rewrite (lost_scene_frame keys depth gw b Hb). cbv zeta.
  destruct (_ || _); [auto|].
  destruct (bool_decide _); [auto|].
  destruct (bool_decide _); [auto|].
  specialize (IH (after_key gw [lost_prompt b]) b Hb).
  destruct (lost_scene keys depth _) as [u gw'|e gw'|gw']; [| |exact IH].
  - destruct IH as (? & ? & ?). repeat split; auto.
    eapply screen_kept_trans; eassumption.
  - destruct IH as (? & ? & ?). repeat split; auto.
    eapply screen_kept_trans; eassumption.
Qed.

(** One move of a live game: it returns, with the invariants kept, or it
    ends with an expected error; it reads a key only in the lost scene. *)
Lemma move_outcome rnd keys fuel depth d gw b :
  board (game gw) = Some b → alive_ok b →
  match move rnd keys fuel depth d gw with
  | GOk again gw' =>
      screen_kept gw gw'
      ∧ ∃ b', board (game gw') = Some b' ∧ board_safe b'
              ∧ (again = true → alive_ok b'
                                ∧ replay (game gw') = replay (game gw)
                                ∧ keys_read gw' = keys_read gw)
  | GRaise e gw' =>
      expected_error e ∧ screen_kept gw gw'
      ∧ ∃ b', board (game gw') = Some b' ∧ board_safe b'
  | GRunning _ => False
  end.
Proof.
  intros Hb Hok. unfold move. unfold gbind at 1. unfold board_update.
  unfold gbind at 1. unfold self_board. rewrite Hb.
  destruct (update rnd fuel d false (mkWorld b (gdrawn gw)))
    as [r w'|e w'] eqn:Hup.
  - destruct r; cbn [negb].
    + cbn [gret]. split; [apply screen_kept_calls with (cs := []);
                          [cbn; rewrite app_nil_r; reflexivity
                          |apply not_elem_of_nil]|].
      exists (brd w'). cbn [game board replay keys_read].
      pose proof (update_alive_ok rnd fuel d false (mkWorld b (gdrawn gw)) w'
                    Hok Hup) as Hok'.
      split; [reflexivity|]. split; [apply Hok'|]. auto.
    + pose proof (update_board_safe rnd fuel d false
                    (mkWorld b (gdrawn gw)) false w' (proj1 Hok) Hup) as Hsafe.
      unfold gbind at 1.
      pose proof (lost_scene_outcome keys depth
                    (mkGWorld (mkGame (replay (game gw)) (Some (brd w')))
                              (drawn w') (keys_read gw) (calls gw))
                    (brd w') eq_refl) as Hlost.
      destruct (lost_scene keys depth _) as [u gw'|e gw'|gw']; [| |exact Hlost].
      * destruct Hlost as (Hb' & _ & (extra & Hc & Hn)). cbn [gret].
        split; [exists extra; auto|]. exists (brd w').
        split; [exact Hb'|]. split; [exact Hsafe|]. discriminate.
      * destruct Hlost as (He & Hg & (extra & Hc & Hn)).
        split; [unfold expected_error; tauto|]. split; [exists extra; auto|].
        exists (brd w'). rewrite Hg. auto.
  - destruct (update_raise_alive rnd fuel d false (mkWorld b (gdrawn gw)) e w'
                Hok Hup) as [-> Hok'].
    split; [right; left; reflexivity|].
    split; [apply screen_kept_calls with (cs := []);
            [cbn; rewrite app_nil_r; reflexivity|apply not_elem_of_nil]|].
    exists (brd w'). split; [reflexivity|apply Hok'].
Qed.

(** One turn of a live game. *)
Lemma loop_outcome rnd keys fuel depth gw b :
  board (game gw) = Some b → alive_ok b →
  match loop rnd keys fuel depth gw with
  | GOk again gw' =>
      screen_kept gw gw'
      ∧ ∃ b', board (game gw') = Some b' ∧ board_safe b'
              ∧ (again = true → alive_ok b'
                                ∧ replay (game gw') = replay (game gw)
                                ∧ keys_read gw' = S (keys_read gw))
  | GRaise e gw' =>
      expected_error e ∧ screen_kept gw gw'
      ∧ ∃ b', board (game gw') = Some b' ∧ board_safe b'
  | GRunning _ => False
  end.
Proof.
  intros Hb Hok. destruct (render_total b) as (cs & Hr & Hne).
  assert (Hk : screen_kept gw (after_key gw cs)).
  { apply (screen_kept_calls _ _ cs); [reflexivity|exact Hne]. }
  assert (Hmove : ∀ d,
            match move rnd keys fuel depth d (after_key gw cs) with
            | GOk again gw' =>
                screen_kept gw gw'
                ∧ ∃ b', board (game gw') = Some b' ∧ board_safe b'
                        ∧ (again = true → alive_ok b'
                           ∧ replay (game gw') = replay (game gw)
                           ∧ keys_read gw' = S (keys_read gw))
            | GRaise e gw' =>
                expected_error e ∧ screen_kept gw gw'
                ∧ ∃ b', board (game gw') = Some b' ∧ board_safe b'
            | GRunning _ => False
            end).
  { intros d.
    pose proof (move_outcome rnd keys fuel depth d (after_key gw cs) b Hb Hok)
      as Hm.
    destruct (move rnd keys fuel depth d (after_key gw cs))
      as [a gw'|e gw'|gw']; [| |exact Hm].
    - destruct Hm as (Hs & Hrest). split; [|exact Hrest].
      eapply screen_kept_trans; eassumption.
    - destruct Hm as (He & Hs & Hrest). split; [exact He|].
      split; [|exact Hrest]. eapply screen_kept_trans; eassumption. }
  rewrite (loop_frame rnd keys fuel depth gw b cs Hb Hr). cbv zeta.
  destruct (_ || _).
  { split; [left; reflexivity|]. split; [exact Hk|]. exists b.
    split; [exact Hb|apply Hok]. }
  destruct (_ || _); [apply Hmove|].
  destruct (_ || _); [apply Hmove|].
  destruct (_ || _); [apply Hmove|].
  destruct (_ || _); [apply Hmove|].
  destruct (bool_decide _).
  - split; [exists cs; auto|]. exists b. cbn [game board]. rewrite Hb.
    split; [reflexivity|]. split; [apply Hok|discriminate].
  - split; [exact Hk|]. exists b. split; [exact Hb|].
    split; [apply Hok|]. auto.
Qed.

(** The turn loop of a live game, followed for [n] turns: it has returned,
    ended with an expected error, or is still running after [n] turns that
    all returned [True], one key each. *)
Lemma play_outcome rnd keys fuel depth n : ∀ gw b,
  board (game gw) = Some b → alive_ok b →
  match play rnd keys fuel depth n gw with
  | GOk _ gw' =>
      screen_kept gw gw' ∧ ∃ b', board (game gw') = Some b' ∧ board_safe b'
  | GRaise e gw' =>
      expected_error e ∧ screen_kept gw gw'
      ∧ ∃ b', board (game gw') = Some b' ∧ board_safe b'
  | GRunning gw' =>
      screen_kept gw gw'
      ∧ keys_read gw' = (keys_read gw + n)%nat
      ∧ replay (game gw') = replay (game gw)
      ∧ ∃ b', board (game gw') = Some b' ∧ alive_ok b'
  end.
Proof.
  induction n as [|n IH]; intros gw b Hb Hok.
  { cbn [play]. split; [apply screen_kept_refl|]. split; [lia|].
    split; [reflexivity|]. eauto. }
  cbn [play]. unfold gbind at 1.
  pose proof (loop_outcome rnd keys fuel depth gw b Hb Hok) as Hl.
  destruct (loop rnd keys fuel depth gw) as [again gw1|e gw1|gw1];
    [| |destruct Hl].
  - destruct Hl as (Hs & b1 & Hb1 & Hsafe & Halive). destruct again.
    + destruct (Halive eq_refl) as (Hok1 & Hrep1 & Hkeys1).
      specialize (IH gw1 b1 Hb1 Hok1).
      destruct (play rnd keys fuel depth n gw1) as [u gw'|e gw'|gw'].
      * destruct IH as (Hs' & Hrest). split; [|exact Hrest].
        eapply screen_kept_trans; eassumption.
      * destruct IH as (He & Hs' & Hrest). split; [exact He|].
        split; [|exact Hrest]. eapply screen_kept_trans; eassumption.
      * destruct IH as (Hs' & Hk' & Hr' & Hrest).
        split; [eapply screen_kept_trans; eassumption|].
        split; [lia|]. split; [congruence|exact Hrest].
    + cbn [gret]. split; [exact Hs|]. eauto.
  - exact Hl.
Qed.

Lemma help_scene_frame keys gw :
  help_scene keys gw =
    let c := keys (keys_read gw) in
    let gw1 := after_key gw [Clear; AddStr 0 0 help_text] in
    if (c <? 0) || (1114111 <? c) then GRaise ChrValueError gw1
    else if bool_decide (c = ord "q") then
      GRaise (SystemExit 0)
             (mkGWorld (game gw) (gdrawn gw) (S (keys_read gw))
                       (calls gw ++ [Clear; AddStr 0 0 help_text; Endwin]))
    else GOk tt gw1.
Proof.
  unfold help_scene. unfold gbind at 1. cbn [call].
  unfold gbind at 1. cbn [call game gdrawn keys_read calls].
  unfold gbind at 1. cbn [getch game gdrawn keys_read calls].
  unfold gbind at 1. unfold chr. cbv zeta. unfold after_key.
  rewrite <- !app_assoc. cbn [app].
  destruct (_ || _); [reflexivity|]. cbn [gret].
  destruct (bool_decide _); [|reflexivity].
  unfold gbind, deinit, call, graise. cbn [game gdrawn keys_read calls].
  rewrite <- !app_assoc. reflexivity.
Qed.

Lemma game_init_frame h w gw :
  game_init h w gw
  = GOk tt (mkGWorld (init (game gw) h w) (gdrawn gw) (keys_read gw)
                     (calls gw ++ [Initscr; CursSet 0; Noecho])).
Proof.
  unfold game_init, gbind, call. cbn [game gdrawn keys_read calls].
  rewrite <- !app_assoc. reflexivity.
Qed.

(** The session loop of [main], followed for [n] sessions of at most
    [turns] turns. *)
Lemma sessions_outcome rnd keys fuel depth turns n : ∀ gw,
  match sessions rnd keys fuel depth turns n gw with
  | GOk _ gw' => replay (game gw') = false ∧ screen_kept gw gw'
  | GRaise e gw' =>
      (expected_error e ∧ screen_kept gw gw')
      ∨ (e = SystemExit 0
         ∧ ∃ extra, calls gw' = calls gw ++ extra ++ [Endwin]
                    ∧ Endwin ∉ extra)
  | GRunning gw' => screen_kept gw gw'
  end.
Proof.
  induction n as [|n IH]; intros gw; [apply screen_kept_refl|].
  cbn [sessions]. destruct (replay (game gw)) eqn:Hrep.
  2:{ split; [exact Hrep|apply screen_kept_refl]. }
  unfold gbind at 1. rewrite game_init_frame.
  set (gw0 := mkGWorld (init (game gw) 20 30) (gdrawn gw) (keys_read gw)
                       (calls gw ++ [Initscr; CursSet 0; Noecho])).
  assert (H0 : screen_kept gw gw0).
  { apply (screen_kept_calls _ _ [Initscr; CursSet 0; Noecho]); [reflexivity|].
    rewrite !not_elem_of_cons. repeat split; try discriminate.
    apply not_elem_of_nil. }
  unfold gbind at 1. rewrite help_scene_frame. cbv zeta.
  set (gw1 := after_key gw0 [Clear; AddStr 0 0 help_text]).
  assert (H1 : screen_kept gw gw1).
  { apply (screen_kept_trans _ gw0); [exact H0|].
    apply (screen_kept_calls _ _ [Clear; AddStr 0 0 help_text]);
      [reflexivity|].
    rewrite !not_elem_of_cons. repeat split; try discriminate.
    apply not_elem_of_nil. }
  destruct (_ || _); [left; split; [left; reflexivity|exact H1]|].
  destruct (bool_decide _).
  { right. split; [reflexivity|].
    exists [Initscr; CursSet 0; Noecho; Clear; AddStr 0 0 help_text].
    cbn [calls gw0]. rewrite <- !app_assoc. split; [reflexivity|].
    rewrite !not_elem_of_cons. repeat split; try discriminate.
    apply not_elem_of_nil. }
  unfold gbind at 1.
  pose proof (play_outcome rnd keys fuel depth turns gw1
                (board_of (init (game gw) 20 30)) eq_refl
                (init_alive_ok_lem (game gw) 20 30 ltac:(lia) ltac:(lia)))
    as Hplay.
  destruct (play rnd keys fuel depth turns gw1) as [u gw2|e gw2|gw2].
  - destruct Hplay as (H2 & _). specialize (IH gw2).
    destruct (sessions rnd keys fuel depth turns n gw2)
      as [u' gw'|e gw'|gw'].
    + destruct IH as [Hr H3]. split; [exact Hr|].
      eapply screen_kept_trans; [|exact H3].
      eapply screen_kept_trans; eassumption.
    + assert (H12 : screen_kept gw gw2)
        by (eapply screen_kept_trans; eassumption).
      destruct IH as [[He H3]|[He (extra & Hc & Hn)]].
      * left. split; [exact He|]. eapply screen_kept_trans; eassumption.
      * right. split; [exact He|]. destruct H12 as (pre & Hpre & Hnpre).
        exists (pre ++ extra). rewrite Hc, Hpre, <- !app_assoc.
        split; [reflexivity|]. rewrite not_elem_of_app. tauto.
    + eapply screen_kept_trans; [|exact IH].
      eapply screen_kept_trans; eassumption.
  - destruct Hplay as (He & H2 & _). left. split; [exact He|].
    eapply screen_kept_trans; eassumption.
  - destruct Hplay as (H2 & _). eapply screen_kept_trans; eassumption.
Qed.

(** ** Soundness of a game *)

(** X15. [init] sets up a sound game.  For a width of at least 5 and a
    height of at least 3 the board of [init] has a grid with cells, a snake
    of three segments each facing the next, no two on one cell and none on a
    wall, one apple in the grid and off the walls, walls all along the rim
    with the snake strictly inside, and score 0, that is length minus 3. *)
Theorem init_alive_ok g h w :
  5 ≤ w → 3 ≤ h → alive_ok (board_of (init g h w)).
Proof. exact (init_alive_ok_lem g h w). Qed.

Lemma init_alive_ok_witness :
  5 ≤ 30 ∧ 3 ≤ 20 ∧ alive_ok (board_of (init new_game 20 30)).
Proof.
  split; [lia|]. split; [lia|]. apply (init_alive_ok new_game 20 30); lia.
Defined.

(** X16. a turn keeps the game sound.  From a board satisfying the
    invariants of a live game, one turn of [Game.loop] that returns [True]
    leaves such a board again (segments linked, no self-overlap, nothing on
    a wall, apples distinct, in the grid and off the walls, walls all along
    the rim and the snake strictly inside, at least three segments, score
    equal to length minus 3) and the replay flag as it was;
    a turn that returns [False] or raises leaves a board with all of this
    but the last two.  A turn always ends, and the exceptions it can raise
    are the [ValueError] of [chr] and [RecursionError], out of the retries
    of [new_apple] or out of the rounds of the lost scene. *)
Theorem turn_keeps_invariants rnd keys fuel depth gw b :
  board (game gw) = Some b → alive_ok b →
  match loop rnd keys fuel depth gw with
  | GOk again gw' =>
      ∃ b', board (game gw') = Some b' ∧ board_safe b'
            ∧ (again = true → alive_ok b'
                              ∧ replay (game gw') = replay (game gw))
  | GRaise e gw' =>
      (e = ChrValueError ∨ e = BoardError RecursionError
       ∨ e = SceneRecursionError)
      ∧ ∃ b', board (game gw') = Some b' ∧ board_safe b'
  | GRunning _ => False
  end.
Proof.
  intros Hb Hok. pose proof (loop_outcome rnd keys fuel depth gw b Hb Hok) as H.
  destruct (loop rnd keys fuel depth gw) as [a gw'|e gw'|gw']; [| |exact H].
  - destruct H as (_ & b' & Hb' & Hsafe & Halive).
    exists b'. split; [exact Hb'|]. split; [exact Hsafe|].
    intros Ha. destruct (Halive Ha) as (? & ? & _). auto.
  - destruct H as (He & _ & Hrest). auto.
Qed.

(** X17. a session crashes on nothing but a bad key code or the recursion
    limit.  Started on a board satisfying the invariants of a live game and
    followed for [n] turns, the turn loop of [main], whatever the keys and
    the random values, raises nothing but the [ValueError] of [chr] and
    [RecursionError] (of [new_apple] or of the lost scene): no [IndexError]
    of the deque, no [ValueError] of [randint] or [list.remove], no
    [UnboundLocalError] of [render].  It never calls [endwin], and the
    board it leaves is still linked, free of self-overlap, off the walls
    and inside the rim.  A loop still running after [n] turns has read [n]
    keys, and its board satisfies the invariants of a live game. *)
Theorem play_never_crashes rnd keys fuel depth n gw b :
  board (game gw) = Some b → alive_ok b →
  match play rnd keys fuel depth n gw with
  | GOk _ gw' =>
      screen_kept gw gw' ∧ ∃ b', board (game gw') = Some b' ∧ board_safe b'
  | GRaise e gw' =>
      (e = ChrValueError ∨ e = BoardError RecursionError
       ∨ e = SceneRecursionError)
      ∧ screen_kept gw gw'
      ∧ ∃ b', board (game gw') = Some b' ∧ board_safe b'
  | GRunning gw' =>
      screen_kept gw gw'
      ∧ keys_read gw' = (keys_read gw + n)%nat
      ∧ replay (game gw') = replay (game gw)
      ∧ ∃ b', board (game gw') = Some b' ∧ alive_ok b'
  end.
Proof. exact (play_outcome rnd keys fuel depth n gw b). Qed.

(** X18. [main] restores the terminal on its regular exits only.  Followed
    for [n] sessions of at most [turns] turns: when [main] ends by returning
    or by the [SystemExit(0)] of the help scene, [endwin] has been called
    exactly once, as the last call on curses, and a return leaves the replay
    flag cleared.  The other ways [main] can end are the [ValueError] of
    [chr] on a key code out of range and [RecursionError] (of [new_apple]
    or of the lost scene), and then [endwin] has not been called at all;
    nor has it while [main] is still running.  In particular [q] as the
    first key ends [main] with [SystemExit(0)] right after the help text,
    on the untouched starting board. *)
Theorem main_restores_terminal rnd keys fuel depth turns n :
  match main rnd keys fuel depth turns n with
  | GOk _ gw =>
      replay (game gw) = false
      ∧ ∃ before, calls gw = before ++ [Endwin] ∧ Endwin ∉ before
  | GRaise e gw =>
      (e = SystemExit 0
       ∧ ∃ before, calls gw = before ++ [Endwin] ∧ Endwin ∉ before)
      ∨ ((e = ChrValueError ∨ e = BoardError RecursionError
          ∨ e = SceneRecursionError)
         ∧ Endwin ∉ calls gw)
  | GRunning gw => Endwin ∉ calls gw
  end
  ∧ (keys O = ord "q" → (0 < n)%nat →
     main rnd keys fuel depth turns n
     = GRaise (SystemExit 0)
         (mkGWorld (init new_game 20 30) 0 1
            [Initscr; CursSet 0; Noecho; Clear; AddStr 0 0 help_text; Endwin])).
Proof.
  split.
  - unfold main. unfold gbind.
    pose proof (sessions_outcome rnd keys fuel depth turns n
                  (mkGWorld new_game 0 0 [])) as H.
    destruct (sessions rnd keys fuel depth turns n _) as [u gw|e gw|gw].
    + destruct H as [Hr (extra & Hc & Hn)]. cbn [calls] in Hc.
      unfold deinit, call. cbn [game calls]. split; [exact Hr|].
      exists extra. rewrite Hc. auto.
    + destruct H as [[He (extra & Hc & Hn)]|[He (extra & Hc & Hn)]].
      * right. split; [exact He|]. rewrite Hc. exact Hn.
      * left. split; [exact He|]. exists extra. rewrite Hc. auto.
    + destruct H as (extra & Hc & Hn). rewrite Hc. exact Hn.
  - intros Hq Hf. destruct n as [|n]; [lia|].
    unfold main. unfold gbind at 1. cbn [sessions new_game game replay].
    unfold gbind at 1. rewrite game_init_frame.
    unfold gbind at 1. rewrite help_scene_frame. cbv zeta.
    cbn [keys_read]. rewrite Hq. reflexivity.
Qed.

(** ** Worked examples *)

Lemma update_keeps_apples_witness :
  ∃ w',
    update (fun _ => 2) 1 RIGHT false (mkWorld small_apple_ahead 0) = Ok true w'
    ∧ length (apples (brd w')) = length (apples small_apple_ahead)
    ∧ apples (brd w') = [mkPoint 2 2].
Proof.
  assert (E : ∃ w', update (fun _ => 2) 1 RIGHT false
                      (mkWorld small_apple_ahead 0) = Ok true w'
                    ∧ apples (brd w') = [mkPoint 2 2])
    by (eexists; split; vm_compute; reflexivity).
  destruct E as (w' & E & Hap). exists w'. split; [exact E|].
  split; [|exact Hap].
  exact (proj1 (update_keeps_apples _ _ _ _ _ _ _ E)).
Defined.

Lemma update_keeps_linked_witness :
  linked (body (snake small_apple_ahead)) = true
  ∧ ∃ w',
      update (fun _ => 2) 1 DOWN false (mkWorld small_apple_ahead 0) = Ok true w'
      ∧ linked (body (snake (brd w'))) = true.
Proof.
  split; [reflexivity|].
  assert (E : ∃ w', update (fun _ => 2) 1 DOWN false
                      (mkWorld small_apple_ahead 0) = Ok true w')
    by (eexists; vm_compute; reflexivity).
  destruct E as (w' & E). exists w'. split; [exact E|].
  exact (update_keeps_linked _ _ _ _ (mkWorld small_apple_ahead 0) _ _
           eq_refl E).
Defined.

Lemma update_keeps_self_avoiding_witness :
  ∃ w',
    update (fun _ => 2) 1 UP false (mkWorld small_apple_ahead 0) = Ok false w'
    ∧ NoDup (body_points (snake (brd w')))
    ∧ (∀ p, p ∈ body_points (snake (brd w')) → p ∉ obstacles (brd w')).
Proof.
  assert (E : ∃ w', update (fun _ => 2) 1 UP false
                      (mkWorld small_apple_ahead 0) = Ok false w')
    by (eexists; vm_compute; reflexivity).
  destruct E as (w' & E). exists w'. split; [exact E|].
  destruct (init_alive_ok_lem new_game 4 6 ltac:(lia) ltac:(lia))
    as ((_ & _ & Hnd & Hoff & _) & _).
  exact (update_keeps_self_avoiding _ _ _ _ (mkWorld small_apple_ahead 0) _ _
           Hnd Hoff E).
Defined.

Lemma update_score_and_length_witness :
  ∃ w',
    update (fun _ => 2) 1 RIGHT false (mkWorld small_apple_ahead 0) = Ok true w'
    ∧ score (brd w') = 1
    ∧ length (body (snake (brd w'))) = 4%nat
    ∧ score (brd w') - Z.of_nat (length (body (snake (brd w'))))
      = score small_apple_ahead
        - Z.of_nat (length (body (snake small_apple_ahead))).
Proof.
  assert (E : ∃ w', update (fun _ => 2) 1 RIGHT false
                      (mkWorld small_apple_ahead 0) = Ok true w'
                    ∧ score (brd w') = 1
                    ∧ length (body (snake (brd w'))) = 4%nat)
    by (eexists; repeat split; vm_compute; reflexivity).
  destruct E as (w' & E & Hs & Hl). exists w'. split; [exact E|].
  split; [exact Hs|]. split; [exact Hl|].
  destruct (update_score_and_length _ _ _ _ _ _ _ E) as (_ & _ & Ht & _).
  exact (proj2 (Ht eq_refl)).
Defined.

Lemma init_obstacles_ring_witness :
  2 ≤ 20 ∧ 2 ≤ 30
  ∧ Z.of_nat (length (obstacles (board_of (init new_game 20 30))))
    = 2 * 30 + 2 * 20 - 4.
Proof.
  split; [lia|]. split; [lia|].
  apply (proj2 (init_obstacles_ring new_game 20 30)); lia.
Defined.

Lemma render_cell_witness :
  within_borders small_board (mkPoint 3 1) = true
  ∧ ∃ cs, render small_board = Some cs
          ∧ last_write cs 2 3 = Some ">".
Proof.
  split; [reflexivity|].
  destruct (render_cell small_board (mkPoint 3 1) eq_refl) as (cs & Hr & Hw).
  exists cs. split; [exact Hr|]. exact Hw.
Defined.


Lemma turn_keeps_invariants_witness :
  board (game small_start) = Some small_board
  ∧ alive_ok small_board
  ∧ (∃ gw',
       loop (fun _ => 2) (typed [ord "d"]) 1 1 small_start = GOk true gw'
       ∧ ∃ b', board (game gw') = Some b' ∧ alive_ok b')
  ∧ (∃ gw',
       loop (fun _ => 2) (typed [ord "w"; ord "x"]) 1 1 small_start
       = GRaise SceneRecursionError gw'
       ∧ ∃ b', board (game gw') = Some b' ∧ board_safe b').
Proof.
  split; [reflexivity|].
  assert (Hok : alive_ok small_board)
    by (apply (init_alive_ok_lem new_game 4 6); lia).
  split; [exact Hok|]. split.
  - assert (E : ∃ gw', loop (fun _ => 2) (typed [ord "d"]) 1 1 small_start
                       = GOk true gw')
      by (eexists; vm_compute; reflexivity).
    destruct E as (gw' & E). exists gw'. split; [exact E|].
    pose proof (turn_keeps_invariants (fun _ => 2) (typed [ord "d"]) 1%nat 1%nat
                  small_start small_board eq_refl Hok) as H.
    rewrite E in H. destruct H as (b' & Hb' & _ & Halive).
    exists b'. split; [exact Hb'|]. exact (proj1 (Halive eq_refl)).
  - assert (E : ∃ gw', loop (fun _ => 2) (typed [ord "w"; ord "x"]) 1 1
                         small_start = GRaise SceneRecursionError gw')
      by (eexists; vm_compute; reflexivity).
    destruct E as (gw' & E). exists gw'. split; [exact E|].
    pose proof (turn_keeps_invariants (fun _ => 2) (typed [ord "w"; ord "x"])
                  1%nat 1%nat small_start small_board eq_refl Hok) as H.
    rewrite E in H. exact (proj2 H).
Defined.

Lemma play_never_crashes_witness :
  board (game small_start) = Some small_board
  ∧ alive_ok small_board
  ∧ (∃ gw',
       play (fun _ => 2) (typed [ord "d"; ord "s"]) 1 1 3 small_start
       = GOk tt gw'
       ∧ screen_kept small_start gw'
       ∧ ∃ b', board (game gw') = Some b' ∧ board_safe b')
  ∧ (∃ gw',
       play (fun _ => 0) (typed [ord "s"]) 2 1 3 small_start
       = GRaise (BoardError RecursionError) gw'
       ∧ screen_kept small_start gw'
       ∧ ∃ b', board (game gw') = Some b' ∧ board_safe b').
Proof.
  split; [reflexivity|].
  assert (Hok : alive_ok small_board)
    by (apply (init_alive_ok_lem new_game 4 6); lia).
  split; [exact Hok|]. split.
  - assert (E : ∃ gw', play (fun _ => 2) (typed [ord "d"; ord "s"]) 1 1 3
                         small_start = GOk tt gw')
      by (eexists; vm_compute; reflexivity).
    destruct E as (gw' & E). exists gw'. split; [exact E|].
    pose proof (play_never_crashes (fun _ => 2) (typed [ord "d"; ord "s"])
                  1%nat 1%nat 3%nat small_start small_board eq_refl Hok) as H.
    rewrite E in H. exact H.
  - assert (E : ∃ gw', play (fun _ => 0) (typed [ord "s"])
                         2 1 3 small_start
                       = GRaise (BoardError RecursionError) gw')
      by (eexists; vm_compute; reflexivity).
    destruct E as (gw' & E). exists gw'. split; [exact E|].
    pose proof (play_never_crashes (fun _ => 0)
                  (typed [ord "s"])
                  2%nat 1%nat 3%nat small_start small_board eq_refl Hok) as H.
    rewrite E in H. exact (proj2 H).
Defined.

Lemma main_restores_terminal_witness :
  typed [] O = ord "q" ∧ (0 < 1)%nat
  ∧ main (fun _ => 0) (typed []) 1 1 1 1
    = GRaise (SystemExit 0)
        (mkGWorld (init new_game 20 30) 0 1
           [Initscr; CursSet 0; Noecho; Clear; AddStr 0 0 help_text; Endwin]).
Proof.
  split; [reflexivity|]. split; [lia|].
  apply (proj2 (main_restores_terminal (fun _ => 0) (typed []) 1%nat 1%nat
                  1%nat 1%nat));
    [reflexivity | lia].
Defined.

Lemma update_keeps_inside_witness :
  walled small_board ∧ inside small_board
  ∧ ∃ w',
      update (fun _ => 2) 1 RIGHT false (mkWorld small_board 0) = Ok true w'
      ∧ walled (brd w') ∧ inside (brd w').
Proof.
  destruct (init_alive_ok_lem new_game 4 6 ltac:(lia) ltac:(lia))
    as ((_ & _ & _ & _ & _ & _ & Hwall & Hins) & _).
  split; [exact Hwall|]. split; [exact Hins|].
  assert (E : ∃ w', update (fun _ => 2) 1 RIGHT false (mkWorld small_board 0)
                    = Ok true w')
    by (eexists; vm_compute; reflexivity).
  destruct E as (w' & E). exists w'. split; [exact E|].
  exact (update_keeps_inside _ _ _ _ (mkWorld small_board 0) _ _ Hwall Hins E).
Defined.
